(** * OLMS tooling scripts: program-listing generator and bulk find/replace

    A shallow embedding of [scripts/generate_program_listing.py] and
    [tmp_replace.py].  Python [str] values are sequences of Unicode code
    points, [pathlib] paths are sequences of path components relative to the
    scanned root, [re] patterns are terms of a small regular-expression
    syntax run by a backtracking matcher with Python's priorities. *)

From Stdlib Require Import List NArith Ascii String Bool Arith Lia.
From Stdlib Require Import Sorting.Sorted Sorting.Permutation.
From Stdlib Require Import DecimalString.
Import ListNotations.

Set Implicit Arguments.

(** ** Python strings *)

Module PyStr.

(** A code point, and a [str] as the sequence of its code points. *)
Definition codepoint := N.
Definition str := list codepoint.

(** ASCII literals of the scripts. *)
Definition of_string (s : string) : str :=
  map N_of_ascii (list_ascii_of_string s).

Definition nl : codepoint := 10%N.
Definition cr : codepoint := 13%N.
Definition dquote : codepoint := 34%N.
Definition squote : codepoint := 39%N.
Definition backslash : codepoint := 92%N.

Definition str_eq_dec : forall a b : str, {a = b} + {a <> b} :=
  list_eq_dec N.eq_dec.

Definition str_eqb (a b : str) : bool :=
  if str_eq_dec a b then true else false.

Definition memb (a : str) (l : list str) : bool :=
  existsb (str_eqb a) l.

(** [str.isspace] on one code point: the Unicode white-space table. *)
Definition isspace (c : codepoint) : bool :=
  ((9 <=? c) && (c <=? 13) || (28 <=? c) && (c <=? 32)
   || (c =? 133) || (c =? 160) || (c =? 5760)
   || (8192 <=? c) && (c <=? 8202)
   || (c =? 8232) || (c =? 8233) || (c =? 8239) || (c =? 8287)
   || (c =? 12288))%N.

(** The line boundaries of [str.splitlines]. *)
Definition is_linebreak (c : codepoint) : bool :=
  ((10 <=? c) && (c <=? 13) || (28 <=? c) && (c <=? 30)
   || (c =? 133) || (c =? 8232) || (c =? 8233))%N.

(** [str.lower], on the ASCII letters; the path literals, extension tables
    and file names the scripts compare against are ASCII. *)
Definition lower_char (c : codepoint) : codepoint :=
  if ((65 <=? c) && (c <=? 90))%N then (c + 32)%N else c.

Definition lower (s : str) : str := map lower_char s.

(** [s.startswith(pre)]. *)
Fixpoint startswith (pre s : str) : bool :=
  match pre, s with
  | [], _ => true
  | _ :: _, [] => false
  | a :: pre', b :: s' => (a =? b)%N && startswith pre' s'
  end.

(** [sub in s]. *)
Fixpoint contains (sub s : str) : bool :=
  startswith sub s ||
  match s with
  | [] => false
  | _ :: s' => contains sub s'
  end.

(** [s.lstrip()], [s.rstrip()] and [s.strip()] without argument. *)
Fixpoint lstrip (s : str) : str :=
  match s with
  | [] => []
  | c :: s' => if isspace c then lstrip s' else s
  end.

Fixpoint rstrip (s : str) : str :=
  match s with
  | [] => []
  | c :: s' =>
      match rstrip s' with
      | [] => if isspace c then [] else [c]
      | r => c :: r
      end
  end.

Definition strip (s : str) : str := lstrip (rstrip s).

(** [s.splitlines()]: a boundary closes the current line, CR LF counts as
    one boundary, and a final boundary opens no further line. *)
Fixpoint splitlines (s : str) : list str :=
  match s with
  | [] => []
  | c :: s' =>
      if is_linebreak c then
        [] :: match s' with
              | d :: s'' =>
                  if ((c =? cr) && (d =? nl))%N then splitlines s''
                  else splitlines s'
              | [] => []
              end
      else
        match splitlines s' with
        | [] => [[c]]
        | l :: ls => (c :: l) :: ls
        end
  end.

(** [sep.join(l)]. *)
Fixpoint join (sep : str) (l : list str) : str :=
  match l with
  | [] => []
  | [x] => x
  | x :: l' => x ++ sep ++ join sep l'
  end.

(** [s.replace(old, new)]: the occurrences of [old] are found from left to
    right without overlap; [skip] counts the characters of the occurrence
    just replaced that the scan still has to pass.  An empty [old] matches
    before every character and at the end. *)
Fixpoint replace_scan (old new : str) (skip : nat) (s : str) : str :=
  match s with
  | [] =>
      match skip, old with
      | O, [] => new
      | _, _ => []
      end
  | c :: s' =>
      match skip with
      | S n => replace_scan old new n s'
      | O =>
          if startswith old s then
            match List.length old with
            | O => new ++ c :: replace_scan old new 0 s'
            | S n => new ++ replace_scan old new n s'
            end
          else c :: replace_scan old new 0 s'
      end
  end.

Definition replace (old new s : str) : str := replace_scan old new 0 s.

(** The split of [s] at the last occurrence of [c], as
    [s.rpartition(c)] finds it. *)
Fixpoint rpartition (c : codepoint) (s : str) : option (str * str) :=
  match s with
  | [] => None
  | x :: s' =>
      match rpartition c s' with
      | Some (b, a) => Some (x :: b, a)
      | None => if (x =? c)%N then Some ([], s') else None
      end
  end.

(** The order of [str] values: lexicographic on code points. *)
Fixpoint ltb (a b : str) : bool :=
  match a, b with
  | _, [] => false
  | [], _ :: _ => true
  | x :: a', y :: b' => (x <? y)%N || (x =? y)%N && ltb a' b'
  end.

Definition leb (a b : str) : bool := negb (ltb b a).

(** [sorted(l, key=key)]: the sort is stable, so its result is the one of
    stable insertion from the right. *)
Section Sorted.
Variable A : Type.
Variable key : A -> str.

Fixpoint insert_by (x : A) (l : list A) : list A :=
  match l with
  | [] => [x]
  | y :: l' => if ltb (key y) (key x) then y :: insert_by x l'
               else x :: l
  end.

Fixpoint sorted_by (l : list A) : list A :=
  match l with
  | [] => []
  | x :: l' => insert_by x (sorted_by l')
  end.
End Sorted.

Definition sorted (l : list str) : list str := sorted_by (fun s => s) l.

End PyStr.

(** ** Regular expressions of the [re] module *)

Module Re.
Import PyStr.

(** One-character items of a pattern. *)
Inductive cset : Type :=
| CLit (c : codepoint)            (* an ordinary or escaped character *)
| CLitI (c : codepoint)           (* the same under [re.IGNORECASE] *)
| CDot                            (* [.]: any character but a newline *)
| CDotAll                         (* [.] under [re.DOTALL] *)
| CSpace                          (* [\s] *)
| COneOf (l : list codepoint)     (* a class [[...]] *)
| CNoneOf (l : list codepoint).   (* a negated class [[^...]] *)

Definition mem (c : codepoint) (l : list codepoint) : bool :=
  existsb (N.eqb c) l.

Definition cmatch (cs : cset) (c : codepoint) : bool :=
  match cs with
  | CLit d => (c =? d)%N
  | CLitI d => (lower_char c =? lower_char d)%N
  | CDot => negb (c =? nl)%N
  | CDotAll => true
  | CSpace => isspace c
  | COneOf l => mem c l
  | CNoneOf l => negb (mem c l)
  end.

(** Patterns.  Every repetition of the scripts is over one-character items;
    [^] and [$] are the anchors under [re.MULTILINE]. *)
Inductive re : Type :=
| Eps
| Chr (cs : cset)
| Seq (r1 r2 : re)
| Alt (r1 r2 : re)
| Star (cs : cset)                (* greedy [x*] *)
| StarLazy (cs : cset)            (* [x*?] *)
| Bol                             (* [^] *)
| Eol.                            (* [$] *)

Definition Plus (cs : cset) : re := Seq (Chr cs) (Star cs).

(** A literal word, as [re.escape] makes of a string. *)
Fixpoint word (w : str) : re :=
  match w with
  | [] => Eps
  | c :: w' => Seq (Chr (CLit c)) (word w')
  end.

Fixpoint wordI (w : str) : re :=
  match w with
  | [] => Eps
  | c :: w' => Seq (Chr (CLitI c)) (wordI w')
  end.

Fixpoint seq (l : list re) : re :=
  match l with
  | [] => Eps
  | r :: l' => Seq r (seq l')
  end.

Definition at_bol (prev : option codepoint) : bool :=
  match prev with
  | None => true
  | Some c => (c =? nl)%N
  end.

Definition at_eol (s : str) : bool :=
  match s with
  | [] => true
  | c :: _ => (c =? nl)%N
  end.

(** The backtracking matcher: [rmatch r prev s k] matches [r] at the front
    of [s], [prev] being the character before it, and hands what is left to
    the continuation [k]; alternatives are tried in the order of the [re]
    module (longest first for a greedy repetition, shortest first for a lazy
    one, left before right). *)
Section Matcher.
Variable A : Type.

Fixpoint rmatch (r : re) (prev : option codepoint) (s : str)
    (k : option codepoint -> str -> option A) {struct r} : option A :=
  match r with
  | Eps => k prev s
  | Chr cs =>
      match s with
      | c :: s' => if cmatch cs c then k (Some c) s' else None
      | [] => None
      end
  | Seq r1 r2 => rmatch r1 prev s (fun p t => rmatch r2 p t k)
  | Alt r1 r2 =>
      match rmatch r1 prev s k with
      | Some x => Some x
      | None => rmatch r2 prev s k
      end
  | Star cs =>
      (fix star (p : option codepoint) (t : str) {struct t} : option A :=
         match t with
         | c :: t' =>
             if cmatch cs c then
               match star (Some c) t' with
               | Some x => Some x
               | None => k p t
               end
             else k p t
         | [] => k p t
         end) prev s
  | StarLazy cs =>
      (fix star (p : option codepoint) (t : str) {struct t} : option A :=
         match k p t with
         | Some x => Some x
         | None =>
             match t with
             | c :: t' => if cmatch cs c then star (Some c) t' else None
             | [] => None
             end
         end) prev s
  | Bol => if at_bol prev then k prev s else None
  | Eol => if at_eol s then k prev s else None
  end.
End Matcher.

(** A match of [r] that starts exactly here: what is left after it. *)
Definition match_at (r : re) (prev : option codepoint) (s : str)
  : option str :=
  rmatch r prev s (fun _ t => Some t).

(** The same, refusing the empty match. *)
Definition match_at_nonempty (r : re) (prev : option codepoint) (s : str)
  : option str :=
  rmatch r prev s
    (fun _ t => if List.length t <? List.length s then Some t else None).

(** [pattern.search(s)], as a truth value. *)
Fixpoint search_from (r : re) (prev : option codepoint) (s : str) : bool :=
  match match_at r prev s with
  | Some _ => true
  | None =>
      match s with
      | [] => false
      | c :: s' => search_from r (Some c) s'
      end
  end.

Definition search (r : re) (s : str) : bool := search_from r None s.

(** [re.sub(pattern, repl, s)] for a replacement without group references:
    matches are taken from left to right without overlap; [skip] counts the
    characters of the current match still to pass.  After an empty match the
    scan looks for a non-empty one at the same place before it moves on. *)
Fixpoint sub_scan (r : re) (repl : str) (skip : nat)
    (prev : option codepoint) (s : str) : str :=
  match s with
  | [] =>
      match skip with
      | O => match match_at r prev [] with
             | Some _ => repl
             | None => []
             end
      | S _ => []
      end
  | c :: s' =>
      match skip with
      | S n => sub_scan r repl n (Some c) s'
      | O =>
          match match_at r prev s with
          | Some t =>
              match List.length s - List.length t with
              | S n => repl ++ sub_scan r repl n (Some c) s'
              | O =>
                  match match_at_nonempty r prev s with
                  | Some t' =>
                      repl ++ repl ++
                      sub_scan r repl (List.length s - List.length t' - 1)
                        (Some c) s'
                  | None => repl ++ c :: sub_scan r repl 0 (Some c) s'
                  end
              end
          | None => c :: sub_scan r repl 0 (Some c) s'
          end
      end
  end.

Definition sub (r : re) (repl s : str) : str := sub_scan r repl 0 None s.

End Re.

(** ** Paths of [pathlib], relative to the scanned root *)

Module Pathlib.
Import PyStr.

(** [path.relative_to(root).parts]. *)
Definition Path := list str.

Definition path_eq_dec : forall a b : Path, {a = b} + {a <> b} :=
  list_eq_dec str_eq_dec.

Definition path_eqb (a b : Path) : bool :=
  if path_eq_dec a b then true else false.

Definition dot : codepoint := 46%N.
Definition slash : codepoint := 47%N.

(** [path.name]: the final component. *)
Definition name (p : Path) : str := last p [].

(** [path.suffix]: from the last dot of the name on, when that dot is
    neither the first nor the last character of the name. *)
Definition suffix (p : Path) : str :=
  match rpartition dot (name p) with
  | Some (_ :: _, (_ :: _) as a) => dot :: a
  | _ => []
  end.

(** [path.stem]: the name without its suffix. *)
Definition stem (p : Path) : str :=
  match rpartition dot (name p) with
  | Some ((_ :: _) as b, _ :: _) => b
  | _ => name p
  end.

(** [path.relative_to(root).as_posix()]. *)
Definition as_posix (p : Path) : str := join [slash] p.

End Pathlib.

(** ** [scripts/generate_program_listing.py] *)

Module Listing.
Import PyStr Re Pathlib.

Local Notation "$ s" := (of_string s) (at level 1, s at level 0, format "$ s").

Definition skip_dirs : list str :=
  [$".git"; $"node_modules"; $".next"; $".turbo"; $".idea"; $".vscode";
   $"__pycache__"; $".pytest_cache"; $".venv"].

Definition skip_files : list str := [$".DS_Store"; $"Thumbs.db"].

Definition binary_exts : list str :=
  [$".png"; $".jpg"; $".jpeg"; $".gif"; $".bmp"; $".ico"; $".svg";
   $".mp4"; $".mov"; $".avi"; $".mp3"; $".wav";
   $".pdf"; $".zip"; $".7z"; $".rar";
   $".map"; $".lock"; $".woff"; $".woff2"; $".ttf"; $".eot"].

Definition should_skip (path : Path) : bool :=
  existsb (fun part => memb part skip_dirs) path.

Definition exclude_prefixes : list str :=
  [$"frontend/build/"; $"frontend/public/"; $"backend/data/";
   $"backend/test/"; $"backend/uploads/"; $"docs/"; $"scripts/"].

Definition exclude_names : list str :=
  [$"package-lock.json"; $"yarn.lock"; $"pnpm-lock.yaml"; $".env";
   $".env.example"; $".env.development"; $".gitignore"; $"readme.md";
   $"file_status_report.txt"].

Definition is_program_file (path : Path) : bool :=
  if memb (name path) skip_files then false
  else if memb (lower (suffix path)) binary_exts then false
  else
    let rel := as_posix path in
    let lower_rel := lower rel in
    if existsb (fun pre => startswith pre lower_rel) exclude_prefixes
    then false
    else if memb (lower (name path)) exclude_names then false
    else if memb (lower (suffix path)) [$".log"; $".bak"] then false
    else if contains $".bak." (lower (name path)) then false
    else true.

(** The entries [root.rglob] yields: a relative path, and whether it is a
    directory. *)
Definition entry := (Path * bool)%type.

Definition rel_key (p : Path) : str := lower (as_posix p).

(** The selection loop, then [program_files.sort]. *)
Definition selected (tree : list entry) : list Path :=
  map fst
    (filter (fun e : entry =>
               let (path, is_dir) := e in
               if is_dir then false
               else if should_skip path then false
               else is_program_file path)
            tree).

Definition program_files (tree : list entry) : list Path :=
  sorted_by rel_key (selected tree).

(** [file_contents]: a dict from path to text, in insertion order.  A file
    that cannot be opened ([read] gives [None]) holds the empty text. *)
Definition corpus := list (Path * str).

Fixpoint dict_set (k : Path) (v : str) (d : corpus) : corpus :=
  match d with
  | [] => [(k, v)]
  | (k', v') :: d' =>
      if path_eqb k k' then (k', v) :: d' else (k', v') :: dict_set k v d'
  end.

Definition dict_get (d : corpus) (k : Path) (default : str) : str :=
  match find (fun kv => path_eqb k (fst kv)) d with
  | Some kv => snd kv
  | None => default
  end.

Definition load (read : Path -> option str) (files : list Path) : corpus :=
  fold_left
    (fun d path =>
       dict_set path (match read path with Some t => t | None => [] end) d)
    files [].

(** *** The Code Normalizer *)

Definition block_comment : re :=
  seq [word $"/*"; StarLazy CDotAll; word $"*/"].

Definition line_comment : re :=
  seq [Bol; Star CSpace; word $"//"; Star CDot; Eol].

Definition hash_comment : re :=
  seq [Bol; Star CSpace; word $"#"; Star CDot; Eol].

Definition bat_comment : re :=
  seq [Bol; Star CSpace;
       Alt (seq [wordI $"rem"; Plus CSpace; Star CDot])
           (seq [wordI $"::"; Star CDot]);
       Eol].

Definition js_like : list str :=
  [$".js"; $".jsx"; $".ts"; $".tsx"; $".css"; $".scss"].

(** The comment-stripping steps of [clean_code], one [if] after the other. *)
Definition strip_comments (ext : str) (content : str) : str :=
  let cleaned := content in
  let cleaned :=
    if memb ext js_like
    then Re.sub line_comment [] (Re.sub block_comment [] cleaned)
    else cleaned in
  let cleaned :=
    if str_eqb ext $".py" then Re.sub hash_comment [] cleaned
    else cleaned in
  let cleaned :=
    if memb ext [$".ps1"; $".yml"; $".yaml"]
    then Re.sub hash_comment [] cleaned
    else cleaned in
  let cleaned :=
    if str_eqb ext $".bat" then Re.sub bat_comment [] cleaned
    else cleaned in
  let cleaned :=
    if str_eqb ext $".json"
    then Re.sub line_comment [] (Re.sub block_comment [] cleaned)
    else cleaned in
  cleaned.

(** The loop that collapses consecutive blank lines; [blank] is its flag. *)
Fixpoint collapse (blank : bool) (lines : list str) : list str :=
  match lines with
  | [] => []
  | line :: rest =>
      match strip line with
      | [] => if blank then collapse true rest
              else [] :: collapse true rest
      | _ :: _ => line :: collapse false rest
      end
  end.

(** The white-space steps of [clean_code]. *)
Definition normalize_whitespace (cleaned : str) : str :=
  let lines := map rstrip (splitlines cleaned) in
  strip (join [nl] (collapse false lines)).

Definition clean_code (path : Path) (content : str) : str :=
  let ext := lower (suffix path) in
  normalize_whitespace (strip_comments ext content).

(** The extensions for which [clean_code] strips comments. *)
Definition comment_exts : list str :=
  js_like ++ [$".py"; $".ps1"; $".yml"; $".yaml"; $".bat"; $".json"].

(** *** The Classifier *)



Definition module_name (path : Path) : str :=
  let lower_rel := lower (as_posix path) in
  if startswith $"backend/adapters/" lower_rel then $"Backend - Adapters"
  else if startswith $"backend/middleware/" lower_rel
  then $"Backend - Middleware"
  else if startswith $"backend/routes/" lower_rel then $"Backend - Routes"
  else if startswith $"backend/utils/" lower_rel then $"Backend - Utils"
  else if startswith $"backend/scripts/" lower_rel then $"Backend - Scripts"
  else if startswith $"backend/" lower_rel then $"Backend - Core"
  else if startswith $"frontend/src/pages/" lower_rel
  then $"Frontend - Pages"
  else if startswith $"frontend/src/components/" lower_rel
  then $"Frontend - Components"
  else if startswith $"frontend/src/contexts/" lower_rel
  then $"Frontend - Contexts"
  else if startswith $"frontend/src/utils/" lower_rel
  then $"Frontend - Utils"
  else if startswith $"frontend/src/theme/" lower_rel
  then $"Frontend - Theme"
  else if startswith $"frontend/src/data/" lower_rel
  then $"Frontend - Data"
  else if startswith $"frontend/src/" lower_rel then $"Frontend - Core"
  else if startswith $"frontend/" lower_rel then $"Frontend - Other"
  else $"Other".


(** *** The Reference Resolver *)

(** [collection_names]: the lowered stems of the JSON files of the data
    directory, sorted. *)
Definition collection_names (data_files : list Path) : list str :=
  sorted (map (fun item => lower (stem item)) data_files).

Definition quote : cset := COneOf [squote; dquote].
Definition no_quote : cset := CNoneOf [squote; dquote].

Definition require_pattern (w : str) : re :=
  seq [word $"require("; Star CSpace; Chr quote; Star no_quote; word w;
       Chr quote; Star CSpace; word $")"].

Definition from_pattern (w : str) : re :=
  seq [word $"from"; Plus CSpace; Chr quote; Star no_quote; word w;
       Chr quote].

Definition import_pattern (w : str) : re :=
  seq [word $"import"; Plus CSpace; Star (CNoneOf [59%N]); word $"from";
       Plus CSpace; Chr quote; Star no_quote; word w; Chr quote].

Definition quoted_pattern (w : str) : re :=
  seq [Chr quote; word w; Chr quote].

(** [rel.rsplit(".", 1)[0]]. *)
Definition rel_no_ext (rel : str) : str :=
  match rpartition dot rel with
  | Some (b, _) => b
  | None => rel
  end.

Definition patterns (target : Path) : list re :=
  let target_name := name target in
  let target_stem := stem target in
  let rel := as_posix target in
  [require_pattern target_name; from_pattern target_name;
   import_pattern target_name;
   require_pattern target_stem; from_pattern target_stem;
   import_pattern target_stem;
   quoted_pattern rel; quoted_pattern (rel_no_ext rel)].

(** The names the loop of [find_called_by] appends to [callers]. *)
Definition callers (file_contents : corpus) (target : Path) : list str :=
  map (fun kv : Path * str => name (fst kv))
    (filter (fun kv : Path * str =>
               let (caller, content) := kv in
               if path_eqb caller target then false
               else existsb (fun p => search p content) (patterns target))
            file_contents).

Section Resolver.
(** [set_iter l] is the order in which [set(l)] is iterated: the distinct
    elements of [l], in an order the interpreter chooses. *)
Variable set_iter : list str -> list str.

Definition find_table_used (collection_names : list str) (path : Path)
  : str :=
  let rel_lower := lower (as_posix path) in
  let file_stem := lower (stem path) in
  let matches :=
    filter (fun name => contains name rel_lower || contains name file_stem)
           collection_names in
  match matches with
  | _ :: _ => join $", " (sorted (set_iter matches))
  | [] => $"None"
  end.

Definition find_called_by (file_contents : corpus) (target : Path) : str :=
  let callers := sorted_by lower (set_iter (callers file_contents target)) in
  match callers with
  | _ :: _ => join $", " callers
  | [] => $"None"
  end.

(** *** The Report Assembler *)


(** [grouped]: a dict from module label to the paths of the module, in
    insertion order; [setdefault(group, []).append(path)]. *)
Definition groups := list (str * list Path).

Fixpoint group_append (group : str) (path : Path) (d : groups) : groups :=
  match d with
  | [] => [(group, [path])]
  | (g, ps) :: d' =>
      if str_eqb group g then (g, ps ++ [path]) :: d'
      else (g, ps) :: group_append group path d'
  end.

Definition grouped (program_files : list Path) : groups :=
  fold_left (fun d path => group_append (module_name path) path d)
    program_files [].

Definition group_get (d : groups) (group : str) : list Path :=
  match find (fun kv => str_eqb group (fst kv)) d with
  | Some kv => snd kv
  | None => []
  end.

Definition name_key (p : Path) : str := lower (name p).

(** The module sections in the order the report loop visits them, each
    with its files in the order the inner loop visits them. *)
Definition sections (program_files : list Path) : groups :=
  let d := grouped program_files in
  map (fun group => (group, sorted_by name_key (group_get d group)))
    (sorted (map fst d)).



End Resolver.

End Listing.

(** ** [tmp_replace.py] *)

Module TmpReplace.
Import PyStr Pathlib.

Local Notation "$ s" := (of_string s) (at level 1, s at level 0, format "$ s").

Definition extensions : list str :=
  [$".js"; $".jsx"; $".ts"; $".tsx"; $".json"; $".md"; $".ps1"; $".yml";
   $".yaml"; $".txt"; $".html"; $".css"].

Definition skip_prefixes : list Path :=
  [[$"frontend"; $"build"]; [$"frontend"; $"node_modules"];
   [$"node_modules"]; [$".git"]; [$"backend"; $"uploads"]].

Definition allowed_prefixes : list Path :=
  [[$"frontend"; $"src"]; [$"frontend"; $"public"]; [$"backend"; $"routes"];
   [$"backend"; $"test"]].

Definition replacements : list (str * str) :=
  [($"Copy IDs", $"Reference IDs");
   ($"copy IDs", $"Reference IDs");
   ($"copy ids", $"Reference IDs");
   ($"Copy Ids", $"Reference IDs");
   ($"copy Ids", $"Reference IDs");
   ($"Copy ID", $"Reference ID");
   ($"copy ID", $"Reference ID");
   ($"Copy id", $"Reference ID");
   ($"copy id", $"Reference ID")].

(** [rel.relative_to(prefix)] raises [ValueError] unless the components of
    [prefix] begin those of [rel]; [true] stands for no exception. *)
Fixpoint relative_to (rel prefix : Path) : bool :=
  match prefix, rel with
  | [], _ => true
  | _ :: _, [] => false
  | a :: prefix', b :: rel' => str_eqb a b && relative_to rel' prefix'
  end.

(** The inner [for old, new in replacements] loop. *)
Definition substitute (reps : list (str * str)) (text : str) : str :=
  fold_left (fun new_text (r : str * str) => replace (fst r) (snd r) new_text)
    reps text.

(** What [root.rglob] yields: the relative path, whether it is a regular
    file, and what [read_text] gives ([None] for a [UnicodeDecodeError]). *)
Record node : Type := Node {
  rel : Path;
  is_file : bool;
  text : option str
}.

(** The effects of the run: the [write_text] calls and the [modified] list,
    both in the order they happen. *)
Record effects : Type := Effects {
  written : list (Path * str);
  modified : list str
}.

(** The tests a file passes before it is read. *)
Definition in_scope (n : node) : bool :=
  if negb (is_file n) then false
  else if existsb (relative_to (rel n)) skip_prefixes then false
  else if
    match allowed_prefixes with
    | [] => false
    | _ :: _ => negb (existsb (relative_to (rel n)) allowed_prefixes)
    end
  then false
  else if negb (memb (lower (suffix (rel n))) extensions) then false
  else true.

Section Run.
(** The separator [str(rel)] puts between the components of a path. *)
Variable sep : codepoint.

Definition reported (p : Path) : str :=
  replace [backslash] [slash] (join [sep] p).

(** One turn of the main loop. *)
Definition visit (e : effects) (n : node) : effects :=
  if in_scope n then
    match text n with
    | None => e
    | Some t =>
        let new_text := substitute replacements t in
        if str_eqb new_text t then e
        else Effects (written e ++ [(rel n, new_text)])
                     (modified e ++ [reported (rel n)])
    end
  else e.

Definition run (tree : list node) : effects :=
  fold_left visit tree (Effects [] []).

Definition decimal (n : nat) : str :=
  of_string (DecimalString.NilEmpty.string_of_uint (Nat.to_uint n)).

(** The lines printed at the end. *)
Definition printed (e : effects) : list str :=
  [$"Modified files:"] ++ modified e
  ++ [$"Total: " ++ decimal (List.length (modified e))
      ++ $" files updated"].

(** The tree as a following run finds it: a file holds the text last
    written to it. *)
Definition last_write (w : list (Path * str)) (p : Path) : option str :=
  match find (fun kv => path_eqb p (fst kv)) (rev w) with
  | Some kv => Some (snd kv)
  | None => None
  end.

Definition after (tree : list node) (w : list (Path * str)) : list node :=
  map (fun n =>
         match last_write w (rel n) with
         | Some t => Node (rel n) (is_file n) (Some t)
         | None => n
         end)
      tree.
End Run.

End TmpReplace.

(** ** Checks on the replacement table *)

Module Overlap.
Import PyStr.

(** No occurrence of [o] begins inside [w] and runs to its end or beyond,
    and none lies within [w]. *)
Fixpoint no_overlap (o w : str) : bool :=
  match w with
  | [] => true
  | _ :: w' =>
      negb (startswith o w) && negb (startswith w o) && no_overlap o w'
  end.

(** An inserted [new] can be no part of an occurrence of [o]: its first
    character is not in [o], and no occurrence of [o] begins inside it. *)
Definition apart (o new : str) : bool :=
  match o, new with
  | _ :: _, r :: _ => negb (Re.mem r o) && no_overlap o new
  | _, _ => false
  end.

Definition nonempty (s : str) : bool :=
  match s with [] => false | _ :: _ => true end.

(** A table of replacements none of whose searched strings is empty or can
    share a character with an inserted string. *)
Definition closed_table (reps : list (str * str)) : bool :=
  forallb
    (fun o => forallb (fun r => nonempty (fst r) && apart o (snd r)) reps)
    (map fst reps).

End Overlap.

(** ** Lines of a normalised text *)

Module Lines.
Import PyStr.

Definition all_space (s : str) : bool := forallb isspace s.

Definition no_linebreak (l : str) : bool :=
  forallb (fun c => negb (is_linebreak c)) l.

(** [line.strip() == ""]. *)
Definition blank (l : str) : bool :=
  match strip l with [] => true | _ :: _ => false end.

(** No two consecutive lines are blank. *)
Fixpoint no_blank_run (L : list str) : bool :=
  match L with
  | a :: ((b :: _) as L') => negb (blank a && blank b) && no_blank_run L'
  | _ => true
  end.

(** What [rstrip] leaves of a text given by its lines: the blank lines at
    the end go, and the line before them loses its trailing space. *)
Fixpoint rtrim (L : list str) : list str :=
  match L with
  | [] => []
  | l :: L' =>
      match rtrim L' with
      | [] => match rstrip l with [] => [] | m => [m] end
      | R => l :: R
      end
  end.

(** What [lstrip] leaves: the blank lines at the front go, and the line
    after them loses its leading space. *)
Fixpoint ltrim (L : list str) : list str :=
  match L with
  | [] => []
  | l :: L' =>
      match lstrip l with
      | [] => ltrim L'
      | m => m :: L'
      end
  end.

(** The lines of a normalised text: none holds a line boundary or ends in
    white space, no two blank ones follow each other, the last one is not
    empty and the first one begins with a character that is no white
    space. *)
Definition tidy (T : list str) : Prop :=
  Forall (fun l => no_linebreak l = true /\ rstrip l = l) T /\
  no_blank_run T = true /\
  last T [0%N] <> [] /\
  match T with
  | l :: _ => lstrip l = l /\ l <> []
  | [] => True
  end.

End Lines.

(** ** The labels of [module_name] *)

Module Labels.
Import PyStr.

Local Notation "$ s" := (of_string s) (at level 1, s at level 0, format "$ s").


End Labels.

(** ** Lines that are not blank *)

Module Kept.
Import PyStr Lines.

Definition visible (l : str) : bool := negb (blank l).

End Kept.

(** ** Patterns without a line-start anchor *)

Module Anchors.
Import PyStr Re.

(** The pattern holds no [^]: whether it matches does not depend on the
    character before the match. *)
Fixpoint prev_free (r : re) : bool :=
  match r with
  | Bol => false
  | Seq r1 r2 | Alt r1 r2 => prev_free r1 && prev_free r2
  | _ => true
  end.

(** The character before what follows [a], [prev] being the one before
    [a]. *)
Definition before (prev : option codepoint) (a : str) : option codepoint :=
  last (map Some a) prev.

Definition star : codepoint := 42%N.

End Anchors.

(** ** Code points of the comment markers *)

Module Markers.
Import PyStr.

Definition hash : codepoint := 35%N.

End Markers.

(** * Properties *)

Import PyStr Re Pathlib.

Local Notation "$ s" := (of_string s) (at level 1, s at level 0, format "$ s").

(** ** Strings *)

Lemma str_eqb_eq (a b : str) : str_eqb a b = true <-> a = b.
Proof.
  unfold str_eqb. destruct (str_eq_dec a b); split; congruence.
Qed.

Lemma str_eqb_refl (a : str) : str_eqb a a = true.
Proof. now apply str_eqb_eq. Qed.

Lemma str_eqb_sym (a b : str) : str_eqb a b = str_eqb b a.
Proof.
  unfold str_eqb. destruct (str_eq_dec a b), (str_eq_dec b a); congruence.
Qed.

Lemma memb_In (a : str) (l : list str) : memb a l = true <-> In a l.
Proof.
  unfold memb. rewrite existsb_exists. split.
  - intros [x [Hx Hab]]. apply str_eqb_eq in Hab. now subst.
  - intros H. exists a. split; [assumption | apply str_eqb_refl].
Qed.

Lemma path_eqb_eq (a b : Path) : path_eqb a b = true <-> a = b.
Proof.
  unfold path_eqb. destruct (path_eq_dec a b); split; congruence.
Qed.

Lemma startswith_iff (pre s : str) :
  startswith pre s = true <-> exists t, s = pre ++ t.
Proof.
  revert s. induction pre as [|a pre IH]; intros s; simpl.
  - split; [intros _; now exists s | reflexivity].
  - destruct s as [|b s].
    + split; [discriminate | intros [t Ht]; discriminate].
    + rewrite andb_true_iff, N.eqb_eq, IH. split.
      * intros [-> [t ->]]. now exists t.
      * intros [t Ht]. injection Ht as -> ->.
        split; [reflexivity | now exists t].
Qed.

Lemma startswith_skipn (pre s : str) :
  startswith pre s = true -> s = pre ++ skipn (List.length pre) s.
Proof.
  intros H. apply startswith_iff in H as [t ->].
  now rewrite skipn_app, skipn_all, Nat.sub_diag.
Qed.

Lemma contains_cons (o : str) (c : codepoint) (s : str) :
  contains o (c :: s) = startswith o (c :: s) || contains o s.
Proof. reflexivity. Qed.

Lemma contains_nil (o : str) : contains o [] = startswith o [].
Proof. simpl. now rewrite orb_false_r. Qed.

Lemma contains_iff (o s : str) :
  contains o s = true <-> exists a b, s = a ++ o ++ b.
Proof.
  induction s as [|c s IH].
  - rewrite contains_nil, startswith_iff. split.
    + intros [t Ht]. now exists [], t.
    + intros [a [b H]]. symmetry in H. apply app_eq_nil in H as [-> H].
      now exists b.
  - rewrite contains_cons, orb_true_iff, startswith_iff, IH. split.
    + intros [[t Ht] | [a [b ->]]].
      * now exists [], t.
      * now exists (c :: a), b.
    + intros [[|x a] [b H]].
      * left. now exists b.
      * right. injection H as -> ->. now exists a, b.
Qed.

Lemma contains_app_r (o a s : str) :
  contains o s = true -> contains o (a ++ s) = true.
Proof.
  rewrite !contains_iff. intros [x [y ->]]. exists (a ++ x), y.
  now rewrite <- app_assoc.
Qed.

Lemma contains_skipn (o s : str) (n : nat) :
  contains o (skipn n s) = true -> contains o s = true.
Proof.
  intros H. rewrite <- (firstn_skipn n s). now apply contains_app_r.
Qed.

(** ** [str.replace] *)

Section Replace.
Variables old new : str.
Hypothesis old_nonempty : old <> [].

Lemma replace_scan_skip (n : nat) (s : str) :
  replace_scan old new n s = replace old new (skipn n s).
Proof.
  unfold replace. revert n. induction s as [|c s IH]; intros [|n]; simpl;
    try reflexivity.
  - destruct old; [contradiction | reflexivity].
  - apply IH.
Qed.

Lemma replace_nil : replace old new [] = [].
Proof. unfold replace; simpl. destruct old; [contradiction | reflexivity]. Qed.

Lemma replace_match (s : str) :
  startswith old s = true ->
  replace old new s = new ++ replace old new (skipn (List.length old) s).
Proof.
  intros H. unfold replace at 1. destruct s as [|c s].
  - destruct old; [contradiction | discriminate].
  - cbn [replace_scan]. rewrite H.
    destruct (List.length old) as [|n] eqn:E.
    + apply length_zero_iff_nil in E. contradiction.
    + rewrite replace_scan_skip. reflexivity.
Qed.

Lemma replace_nomatch (c : codepoint) (s : str) :
  startswith old (c :: s) = false ->
  replace old new (c :: s) = c :: replace old new s.
Proof.
  intros H. unfold replace. cbn [replace_scan]. now rewrite H.
Qed.

(** Induction along the scan. *)
Lemma replace_ind (P : str -> Prop) :
  P [] ->
  (forall s, startswith old s = true ->
             P (skipn (List.length old) s) -> P s) ->
  (forall c s, startswith old (c :: s) = false -> P s -> P (c :: s)) ->
  forall s, P s.
Proof.
  intros Hnil Hm Hn s.
  remember (List.length s) as n eqn:Hlen.
  revert s Hlen. induction n as [n IH] using lt_wf_ind. intros s Hlen.
  destruct s as [|c s]; [exact Hnil|].
  destruct (startswith old (c :: s)) eqn:E.
  - apply Hm; [exact E|]. eapply IH; [|reflexivity].
    subst n. rewrite length_skipn.
    assert (List.length old <> 0)
      by (intros E0; now apply length_zero_iff_nil in E0).
    cbn [List.length]. lia.
  - apply Hn; [exact E|]. eapply IH; [|reflexivity]. subst n. simpl. lia.
Qed.

(** A text without occurrence of [old] is left as it is. *)
Lemma replace_absent (s : str) :
  contains old s = false -> replace old new s = s.
Proof.
  induction s as [|c s IH]; intros H.
  - apply replace_nil.
  - rewrite contains_cons in H. apply orb_false_iff in H as [H1 H2].
    rewrite replace_nomatch by exact H1. now rewrite IH.
Qed.
End Replace.

(** What a replacement leaves absent. *)
Section ReplaceAbsent.
Import Overlap.
Variables old new : str.
Hypothesis old_nonempty : old <> [].

Lemma startswith_replace (r : codepoint) (new' : str) :
  new = r :: new' ->
  forall s o, Re.mem r o = false ->
    startswith o (replace old new s) = true -> startswith o s = true.
Proof.
  intros Hnew s. pattern s. apply (replace_ind old_nonempty); clear s.
  - intros o _. now rewrite replace_nil.
  - intros s Hs _ [|x o] Hr H; [reflexivity|].
    rewrite (@replace_match old new old_nonempty _ Hs), Hnew in H.
    simpl in H, Hr. apply andb_true_iff in H as [H _].
    apply N.eqb_eq in H. subst x. apply orb_false_iff in Hr as [Hr _].
    now rewrite N.eqb_refl in Hr.
  - intros c s Hs IH [|x o] Hr H; [reflexivity|].
    rewrite (@replace_nomatch old new _ _ Hs) in H. simpl in H |- *.
    apply andb_true_iff in H as [Hx H]. rewrite Hx. simpl.
    apply IH; [|exact H]. simpl in Hr. now apply orb_false_iff in Hr as [_ Hr].
Qed.

Lemma startswith_app_cases (o w t : str) :
  startswith o (w ++ t) = true ->
  w = [] \/ startswith o w = true \/ startswith w o = true.
Proof.
  revert w. induction o as [|x o IH]; intros [|y w] H; auto.
  simpl in H |- *. apply andb_true_iff in H as [Hx H]. rewrite Hx.
  simpl. rewrite N.eqb_sym in Hx. rewrite Hx. simpl.
  destruct (IH w H) as [-> | [H1 | H1]]; auto.
Qed.

Lemma contains_app_new (o w t : str) :
  no_overlap o w = true -> contains o t = false ->
  contains o (w ++ t) = false.
Proof.
  intros Hw Ht. induction w as [|y w IH]; [exact Ht|].
  cbn [no_overlap] in Hw. apply andb_true_iff in Hw as [Hw Hw'].
  apply andb_true_iff in Hw as [H1 H2].
  apply negb_true_iff in H1, H2.
  change ((y :: w) ++ t) with (y :: (w ++ t)). rewrite contains_cons.
  rewrite (IH Hw'), orb_false_r.
  destruct (startswith o (y :: w ++ t)) eqn:E; [|reflexivity].
  apply (startswith_app_cases o (y :: w) t) in E as [E | [E | E]];
    congruence.
Qed.

Lemma replace_keeps_absent (o : str) :
  apart o new = true ->
  forall s, o = old \/ contains o s = false ->
    contains o (replace old new s) = false.
Proof.
  unfold apart. destruct o as [|x o'] eqn:Ho; [discriminate|].
  destruct new as [|r new'] eqn:Hnew; [discriminate|].
  rewrite <- Ho, <- Hnew. intros Hap. apply andb_true_iff in Hap as [Hr Hov].
  apply negb_true_iff in Hr.
  intros s. pattern s. apply (replace_ind old_nonempty); clear s.
  - intros _. rewrite (@replace_nil old new old_nonempty), contains_nil.
    now rewrite Ho.
  - intros s Hs IH Hor.
    rewrite (@replace_match old new old_nonempty _ Hs).
    apply contains_app_new; [exact Hov|]. apply IH.
    destruct Hor as [E | Hc]; [now left | right].
    destruct (contains o (skipn (List.length old) s)) eqn:E; [|reflexivity].
    apply contains_skipn in E. congruence.
  - intros c s Hs IH Hor. rewrite (@replace_nomatch old new _ _ Hs).
    rewrite contains_cons. rewrite IH, orb_false_r.
    + destruct (startswith o (c :: replace old new s)) eqn:E; [|reflexivity].
      rewrite <- (@replace_nomatch old new _ _ Hs) in E.
      apply (@startswith_replace _ _ Hnew _ _ Hr) in E.
      destruct Hor as [-> | Hc]; [congruence|].
      rewrite contains_cons, E in Hc. discriminate.
    + destruct Hor as [E | Hc]; [now left | right].
      rewrite contains_cons in Hc. now apply orb_false_iff in Hc as [_ Hc].
Qed.
End ReplaceAbsent.

(** ** The substitution pass of [tmp_replace.py] *)

Section Substitute.
Import Overlap TmpReplace.

Lemma nonempty_true (s : str) : nonempty s = true -> s <> [].
Proof. destruct s; [discriminate | intros _; discriminate]. Qed.

Lemma substitute_cons (r : str * str) (reps : list (str * str)) (t : str) :
  substitute (r :: reps) t = substitute reps (replace (fst r) (snd r) t).
Proof. reflexivity. Qed.

Lemma substitute_keeps_absent (o : str) (reps : list (str * str)) :
  forallb (fun r => nonempty (fst r) && apart o (snd r)) reps = true ->
  forall t, contains o t = false \/ In o (map fst reps) ->
    contains o (substitute reps t) = false.
Proof.
  induction reps as [|[old new] reps IH]; intros Hok t Ht.
  - destruct Ht as [Ht | []]. exact Ht.
  - cbn [forallb fst snd] in Hok. apply andb_true_iff in Hok as [Hr Hok].
    apply andb_true_iff in Hr as [Hne Hap]. apply nonempty_true in Hne.
    rewrite substitute_cons. cbn [fst snd].
    destruct Ht as [Ht | [E | Hin]].
    + apply IH; [exact Hok | left].
      apply replace_keeps_absent; auto.
    + cbn [fst] in E. subst o. apply IH; [exact Hok | left].
      apply replace_keeps_absent; auto.
    + apply IH; [exact Hok | now right].
Qed.

Lemma substitute_absent (reps : list (str * str)) (t : str) :
  (forall r, In r reps -> fst r <> [] /\ contains (fst r) t = false) ->
  substitute reps t = t.
Proof.
  induction reps as [|r reps IH]; intros H; [reflexivity|].
  rewrite substitute_cons.
  destruct (H r (or_introl eq_refl)) as [Hne Hc].
  rewrite (replace_absent (snd r) Hne _ Hc).
  apply IH. intros r' Hr'. apply H. now right.
Qed.

Lemma closed_table_absent (reps : list (str * str)) :
  closed_table reps = true ->
  forall r t, In r reps -> contains (fst r) (substitute reps t) = false.
Proof.
  unfold closed_table. intros H r t Hr.
  rewrite forallb_forall in H.
  apply substitute_keeps_absent.
  - apply H. now apply in_map.
  - right. now apply in_map.
Qed.

Lemma closed_table_nonempty (reps : list (str * str)) :
  closed_table reps = true -> forall r, In r reps -> fst r <> [].
Proof.
  unfold closed_table. intros H r Hr. rewrite forallb_forall in H.
  specialize (H (fst r) (in_map fst _ _ Hr)).
  rewrite forallb_forall in H. specialize (H r Hr).
  apply andb_true_iff in H as [H _]. now apply nonempty_true.
Qed.

Lemma closed_table_idempotent (reps : list (str * str)) :
  closed_table reps = true ->
  forall t, substitute reps (substitute reps t) = substitute reps t.
Proof.
  intros H t. apply substitute_absent. intros r Hr. split.
  - now apply (closed_table_nonempty _ H).
  - now apply closed_table_absent.
Qed.

Lemma replacements_closed : closed_table replacements = true.
Proof. vm_compute. reflexivity. Qed.
End Substitute.

(** ** The main loop of [tmp_replace.py] *)

Section RunFacts.
Import TmpReplace.
Variable sep : codepoint.

Let none : effects := Effects [] [].

Lemma visit_frame (e : effects) (n : node) :
  visit sep e n =
  Effects (written e ++ written (visit sep none n))
          (modified e ++ modified (visit sep none n)).
Proof.
  unfold visit. destruct e as [w m]; cbn [written modified].
  destruct (in_scope n); [|now rewrite !app_nil_r].
  destruct (text n) as [t|]; [|now rewrite !app_nil_r].
  destruct (str_eqb (substitute replacements t) t);
    [now rewrite !app_nil_r | reflexivity].
Qed.

Lemma fold_visit (tree : list node) (e : effects) :
  fold_left (visit sep) tree e =
  Effects
    (written e ++ flat_map (fun n => written (visit sep none n)) tree)
    (modified e ++ flat_map (fun n => modified (visit sep none n)) tree).
Proof.
  revert e. induction tree as [|n tree IH]; intros e.
  - destruct e; cbn. now rewrite !app_nil_r.
  - cbn [fold_left flat_map]. rewrite IH, visit_frame. cbn [written modified].
    now rewrite <- !app_assoc.
Qed.

Lemma run_flat (tree : list node) :
  run sep tree =
  Effects (flat_map (fun n => written (visit sep none n)) tree)
          (flat_map (fun n => modified (visit sep none n)) tree).
Proof. unfold run. now rewrite fold_visit. Qed.

(** What one visit writes. *)
Lemma visit_written (n : node) (p : Path) (t' : str) :
  In (p, t') (written (visit sep none n)) <->
  in_scope n = true /\ rel n = p /\
  exists t, text n = Some t /\ t' = substitute replacements t /\ t' <> t.
Proof.
  unfold visit. destruct (in_scope n).
  2:{ cbn [written In]. split; [intros [] | intros [H _]; discriminate]. }
  destruct (text n) as [t|].
  2:{ cbn [written In].
      split; [intros [] | intros [_ [_ [t [H _]]]]; discriminate]. }
  remember (substitute replacements t) as t1 eqn:Ht1.
  destruct (str_eqb t1 t) eqn:E.
  - apply str_eqb_eq in E. cbn [written In]. split; [intros []|].
    intros [_ [_ [t0 [H0 [H1 H2]]]]]. injection H0 as <-. congruence.
  - assert (t1 <> t) as Hne
      by (intros H; apply str_eqb_eq in H; congruence).
    cbn [written In app]. split.
    + intros [H | []]. injection H as <- <-. repeat split.
      exists t. repeat split; assumption.
    + intros [_ [<- [t0 [H0 [-> _]]]]]. injection H0 as <-. left.
      now rewrite Ht1.
Qed.

Lemma visit_modified (n : node) :
  modified (visit sep none n) =
  map (fun w => reported sep (fst w)) (written (visit sep none n)).
Proof.
  unfold visit. destruct (in_scope n); [|reflexivity].
  destruct (text n) as [t|]; [|reflexivity].
  now destruct (str_eqb (substitute replacements t) t).
Qed.

Lemma run_written (tree : list node) (p : Path) (t' : str) :
  In (p, t') (written (run sep tree)) <->
  exists n, In n tree /\ in_scope n = true /\ rel n = p /\
    exists t, text n = Some t /\ t' = substitute replacements t /\ t' <> t.
Proof.
  rewrite run_flat. cbn [written]. rewrite in_flat_map. split.
  - intros [n [Hn H]]. exists n. split; [exact Hn|]. now apply visit_written.
  - intros [n [Hn H]]. exists n. split; [exact Hn|]. now apply visit_written.
Qed.

Lemma run_modified (tree : list node) :
  modified (run sep tree) =
  map (fun w => reported sep (fst w)) (written (run sep tree)).
Proof.
  rewrite run_flat. cbn [written modified].
  induction tree as [|n tree IH]; [reflexivity|].
  cbn [flat_map]. now rewrite map_app, IH, visit_modified.
Qed.

(** Visits that write nothing. *)
Let inert (n : node) : Prop := visit sep none n = none.

Lemma run_inert (tree : list node) :
  Forall inert tree -> run sep tree = none.
Proof.
  intros H. rewrite run_flat. induction H as [|n tree Hn _ IH]; [reflexivity|].
  cbn [flat_map]. rewrite Hn. exact IH.
Qed.

Lemma last_write_some (w : list (Path * str)) (p : Path) (t : str) :
  last_write w p = Some t -> In (p, t) w.
Proof.
  unfold last_write.
  destruct (find _ (rev w)) as [[q u]|] eqn:E; [|discriminate].
  intros H. injection H as <-. apply find_some in E as [Hin Hq].
  apply path_eqb_eq in Hq. cbn in Hq. subst q. now apply in_rev.
Qed.

Lemma last_write_none (w : list (Path * str)) (p : Path) :
  last_write w p = None -> forall t, ~ In (p, t) w.
Proof.
  unfold last_write.
  destruct (find _ (rev w)) as [kv|] eqn:E; [discriminate|].
  intros _ t Hin. apply in_rev in Hin.
  pose proof (find_none _ _ E _ Hin) as H. cbn in H.
  assert (path_eqb p p = true) by now apply path_eqb_eq. congruence.
Qed.

Lemma after_inert (tree : list node) :
  Forall inert (after tree (written (run sep tree))).
Proof.
  apply Forall_forall. intros n' Hn'. unfold after in Hn'.
  apply in_map_iff in Hn' as [n [<- Hn]].
  destruct (last_write _ (rel n)) as [t'|] eqn:E.
  - apply last_write_some, run_written in E.
    destruct E as [n0 [_ [_ [_ [t [_ [-> _]]]]]]].
    unfold inert, visit. cbn [text]. destruct (in_scope _); [|reflexivity].
    rewrite (closed_table_idempotent _ replacements_closed).
    now rewrite str_eqb_refl.
  - pose proof (last_write_none _ _ E) as Hno.
    unfold inert, visit. destruct (in_scope n) eqn:Es; [|reflexivity].
    destruct (text n) as [t|] eqn:Et; [|reflexivity].
    destruct (str_eqb (substitute replacements t) t) eqn:Eq; [reflexivity|].
    exfalso. apply (Hno (substitute replacements t)). apply run_written.
    exists n. repeat split; auto. exists t. repeat split; auto.
    intros H. apply str_eqb_eq in H. congruence.
Qed.
End RunFacts.

(** ** The order of strings and [sorted] *)

Lemma ltb_irrefl (a : str) : ltb a a = false.
Proof.
  induction a as [|x a IH]; [reflexivity|].
  simpl. now rewrite N.ltb_irrefl, N.eqb_refl, IH.
Qed.

Lemma ltb_trans (a b c : str) :
  ltb a b = true -> ltb b c = true -> ltb a c = true.
Proof.
  revert b c. induction a as [|x a IH]; intros [|y b] [|z c]; simpl;
    try discriminate; try reflexivity.
  destruct (N.ltb_spec x y), (N.eqb_spec x y), (N.ltb_spec y z),
    (N.eqb_spec y z), (N.ltb_spec x z), (N.eqb_spec x z);
    simpl; try discriminate; try reflexivity; try lia.
  apply IH.
Qed.

Lemma ltb_asym (a b : str) : ltb a b = true -> ltb b a = false.
Proof.
  intros H. destruct (ltb b a) eqn:E; [|reflexivity].
  pose proof (ltb_trans _ _ _ H E) as H'. now rewrite ltb_irrefl in H'.
Qed.

Lemma ltb_total (a b : str) :
  ltb a b = false -> ltb b a = false -> a = b.
Proof.
  revert b. induction a as [|x a IH]; intros [|y b]; simpl;
    try discriminate; try reflexivity.
  destruct (N.ltb_spec x y), (N.eqb_spec x y), (N.ltb_spec y x),
    (N.eqb_spec y x); simpl; try discriminate; try lia.
  intros H1 H2. subst y. f_equal. now apply IH.
Qed.

Lemma leb_trans (a b c : str) :
  ltb b a = false -> ltb c b = false -> ltb c a = false.
Proof.
  intros H1 H2. destruct (ltb c a) eqn:E; [|reflexivity].
  destruct (ltb b c) eqn:E'.
  - now rewrite (ltb_trans _ _ _ E' E) in H1.
  - rewrite (ltb_total _ _ E' H2) in H1. congruence.
Qed.

Section SortedFacts.
Variable A : Type.
Variable key : A -> str.

(** [a] may stand before [b]. *)
Let le (a b : A) : Prop := ltb (key b) (key a) = false.

Lemma insert_by_perm (x : A) (l : list A) :
  Permutation (insert_by key x l) (x :: l).
Proof.
  induction l as [|y l IH]; [reflexivity|].
  simpl. destruct (ltb (key y) (key x)); [|reflexivity].
  rewrite IH. apply perm_swap.
Qed.

Lemma sorted_by_perm (l : list A) : Permutation (sorted_by key l) l.
Proof.
  induction l as [|x l IH]; [reflexivity|].
  simpl. rewrite insert_by_perm. now constructor.
Qed.

Lemma sorted_by_In (l : list A) (x : A) :
  In x (sorted_by key l) <-> In x l.
Proof.
  split; apply Permutation_in;
    [apply sorted_by_perm | symmetry; apply sorted_by_perm].
Qed.

Lemma insert_by_sorted (x : A) (l : list A) :
  Sorted le l -> Sorted le (insert_by key x l).
Proof.
  induction 1 as [|y l Hl IH Hhd]; simpl.
  - repeat constructor.
  - destruct (ltb (key y) (key x)) eqn:E.
    + constructor; [exact IH|].
      destruct l as [|z l]; simpl.
      * constructor. now apply ltb_asym.
      * destruct (ltb (key z) (key x)).
        -- constructor. now inversion Hhd.
        -- constructor. now apply ltb_asym.
    + constructor; [now constructor | now constructor].
Qed.

Lemma sorted_by_sorted (l : list A) : Sorted le (sorted_by key l).
Proof.
  induction l as [|x l IH]; [constructor|].
  simpl. now apply insert_by_sorted.
Qed.

Lemma sorted_by_strongly (l : list A) :
  StronglySorted le (sorted_by key l).
Proof.
  apply Sorted_StronglySorted; [|apply sorted_by_sorted].
  intros a b c Hab Hbc. unfold le in *. now apply (leb_trans _ (key b)).
Qed.
End SortedFacts.


(** ** The File Selector *)

Section SelectorFacts.
Import Listing.



End SelectorFacts.

(** ** Grouping by module *)

Section GroupFacts.
Import Listing.

Let in_group (g : str) (p : Path) : bool := str_eqb (module_name p) g.

Let inv (d : groups) (l : list Path) : Prop :=
  NoDup (map fst d) /\
  (forall g, group_get d g = filter (in_group g) l) /\
  (forall g, In g (map fst d) <-> exists p, In p l /\ module_name p = g).

Lemma group_append_keys (g : str) (p : Path) (d : groups) :
  map fst (group_append g p d) =
  if memb g (map fst d) then map fst d else map fst d ++ [g].
Proof.
  induction d as [|[g' ps] d IH]; [reflexivity|].
  cbn [group_append map fst memb existsb].
  destruct (str_eqb g g') eqn:E; cbn [map fst orb]; [reflexivity|].
  rewrite IH. fold (memb g (map fst d)).
  now destruct (memb g (map fst d)).
Qed.

Lemma group_append_get (g : str) (p : Path) (d : groups) (g0 : str) :
  group_get (group_append g p d) g0 =
  if str_eqb g0 g then group_get d g0 ++ [p] else group_get d g0.
Proof.
  unfold group_get. induction d as [|[g' ps] d IH].
  - cbn. now destruct (str_eqb g0 g).
  - cbn [group_append]. destruct (str_eqb g g') eqn:E.
    + apply str_eqb_eq in E. subst g'. cbn [find fst snd].
      destruct (str_eqb g0 g); [reflexivity|reflexivity].
    + cbn [find fst snd]. destruct (str_eqb g0 g') eqn:E'.
      * apply str_eqb_eq in E'. subst g'.
        destruct (str_eqb g0 g) eqn:E''; [|reflexivity].
        apply str_eqb_eq in E''. subst g0. now rewrite str_eqb_refl in E.
      * exact IH.
Qed.

Lemma inv_step (d : groups) (l : list Path) (p : Path) :
  inv d l -> inv (group_append (module_name p) p d) (l ++ [p]).
Proof.
  intros [Hnd [Hget Hkeys]]. repeat split.
  - rewrite group_append_keys.
    destruct (memb (module_name p) (map fst d)) eqn:E; [exact Hnd|].
    apply NoDup_app; [exact Hnd | repeat constructor; intros [] |].
    intros x Hx [<- | []]. apply memb_In in Hx. congruence.
  - intros g. rewrite group_append_get, filter_app, Hget. cbn [filter].
    rewrite (str_eqb_sym g (module_name p)).
    change (in_group g p) with (str_eqb (module_name p) g).
    destruct (str_eqb (module_name p) g);
      [reflexivity | now rewrite app_nil_r].
  - rewrite group_append_keys. intros Hg.
    destruct (memb (module_name p) (map fst d)) eqn:E.
    + apply Hkeys in Hg as [q [Hq Hm]]. exists q. split; [|exact Hm].
      apply in_or_app. now left.
    + apply in_app_or in Hg as [Hg | [<- | []]].
      * apply Hkeys in Hg as [q [Hq Hm]]. exists q. split; [|exact Hm].
        apply in_or_app. now left.
      * exists p. split; [|reflexivity]. apply in_or_app. right. now left.
  - rewrite group_append_keys. intros [q [Hq Hm]].
    assert (In g (map fst d) \/ g = module_name p) as [H | ->].
    { apply in_app_or in Hq as [Hq | [<- | []]]; [left | now right].
      apply Hkeys. now exists q. }
    + destruct (memb _ _); [exact H | apply in_or_app; now left].
    + destruct (memb (module_name p) (map fst d)) eqn:E.
      * now apply memb_In.
      * apply in_or_app. right. now left.
Qed.

Lemma inv_fold (pf l : list Path) (d : groups) :
  inv d l ->
  inv (fold_left (fun d path => group_append (module_name path) path d)
         pf d)
      (l ++ pf).
Proof.
  revert l d. induction pf as [|p pf IH]; intros l d H.
  - now rewrite app_nil_r.
  - cbn [fold_left].
    replace (l ++ p :: pf) with ((l ++ [p]) ++ pf)
      by now rewrite <- app_assoc.
    apply IH. now apply inv_step.
Qed.

Lemma grouped_keys_nodup (pf : list Path) : NoDup (map fst (grouped pf)).
Proof.
  apply (inv_fold pf (l := []) (d := [])). repeat split.
  - constructor.
  - intros [].
  - intros [p [[] _]].
Qed.

Lemma grouped_get (pf : list Path) (g : str) :
  group_get (grouped pf) g =
  filter (fun p => str_eqb (module_name p) g) pf.
Proof.
  apply (inv_fold pf (l := []) (d := [])). repeat split.
  - constructor.
  - intros [].
  - intros [p [[] _]].
Qed.

Lemma grouped_keys (pf : list Path) (g : str) :
  In g (map fst (grouped pf)) <-> exists p, In p pf /\ module_name p = g.
Proof.
  apply (inv_fold pf (l := []) (d := [])). repeat split.
  - constructor.
  - intros [].
  - intros [p [[] _]].
Qed.
End GroupFacts.

(** ** Stripping white space *)

Section StripFacts.
Import Lines.

Lemma rstrip_nil_iff (s : str) : rstrip s = [] <-> all_space s = true.
Proof.
  induction s as [|c s IH]; [now split|].
  cbn [rstrip all_space forallb]. fold (all_space s).
  destruct (rstrip s) as [|x r].
  - rewrite (proj1 IH eq_refl), andb_true_r.
    destruct (isspace c); split; congruence.
  - split; [discriminate|]. intros H. apply andb_true_iff in H as [_ H].
    apply IH in H. discriminate.
Qed.

Lemma lstrip_nil_iff (s : str) : lstrip s = [] <-> all_space s = true.
Proof.
  induction s as [|c s IH]; [now split|].
  cbn [lstrip all_space forallb]. fold (all_space s).
  destruct (isspace c); [exact IH | split; discriminate].
Qed.

Lemma rstrip_app (a b : str) :
  rstrip (a ++ b) = match rstrip b with [] => rstrip a | _ => a ++ rstrip b end.
Proof.
  induction a as [|c a IH]; cbn [app rstrip].
  - now destruct (rstrip b).
  - rewrite IH. destruct (rstrip b) as [|x r]; [reflexivity|].
    now destruct a.
Qed.

Lemma lstrip_app (a b : str) :
  lstrip (a ++ b) = match lstrip a with [] => lstrip b | _ => lstrip a ++ b end.
Proof.
  induction a as [|c a IH]; cbn [app lstrip]; [reflexivity|].
  now destruct (isspace c).
Qed.

Lemma lstrip_idem (s : str) : lstrip (lstrip s) = lstrip s.
Proof.
  induction s as [|c s IH]; [reflexivity|].
  cbn [lstrip]. destruct (isspace c) eqn:E; [exact IH|].
  cbn [lstrip]. now rewrite E.
Qed.

Lemma rstrip_cons_fixed (c : codepoint) (s : str) :
  rstrip (c :: s) = c :: s -> rstrip s = s.
Proof.
  cbn [rstrip]. destruct (rstrip s) as [|x r].
  - destruct (isspace c); [discriminate|]. now intros [= <-].
  - now intros [= <-].
Qed.

Lemma rstrip_idem (s : str) : rstrip (rstrip s) = rstrip s.
Proof.
  induction s as [|c s IH]; [reflexivity|].
  cbn [rstrip]. destruct (rstrip s) as [|x r] eqn:E.
  - destruct (isspace c) eqn:Ec; [reflexivity|].
    cbn [rstrip]. now rewrite Ec.
  - change (rstrip (c :: x :: r)) with
      (match rstrip (x :: r) with
       | [] => if isspace c then [] else [c]
       | y :: r' => c :: y :: r'
       end).
    now rewrite IH.
Qed.

Lemma rstrip_lstrip_fixed (s : str) :
  rstrip s = s -> rstrip (lstrip s) = lstrip s.
Proof.
  induction s as [|c s IH]; [reflexivity|]. intros H.
  cbn [lstrip]. destruct (isspace c); [|exact H].
  apply IH. now apply rstrip_cons_fixed in H.
Qed.


Lemma blank_all_space (l : str) : blank l = all_space l.
Proof.
  unfold blank, strip. destruct (lstrip (rstrip l)) as [|x m] eqn:E.
  - apply lstrip_nil_iff, rstrip_nil_iff in E. rewrite rstrip_idem in E.
    apply rstrip_nil_iff in E. now rewrite E.
  - destruct (all_space l) eqn:E'; [|reflexivity].
    apply rstrip_nil_iff in E'. rewrite E' in E. discriminate.
Qed.
End StripFacts.

(** ** Texts as lines *)

Section LineFacts.
Import Lines Listing.

Lemma join_cons (sep x y : str) (l : list str) :
  join sep (x :: y :: l) = x ++ sep ++ join sep (y :: l).
Proof. reflexivity. Qed.

Lemma rtrim_join_nonnil (L : list str) :
  rtrim L <> [] -> join [nl] (rtrim L) <> [].
Proof.
  destruct L as [|l L]; [easy|]. cbn [rtrim].
  destruct (rtrim L) as [|r R].
  - destruct (rstrip l); [easy | intros _; discriminate].
  - intros _. rewrite join_cons. now destruct l.
Qed.

Lemma rstrip_join (L : list str) :
  rstrip (join [nl] L) = join [nl] (rtrim L).
Proof.
  induction L as [|l L IH]; [reflexivity|].
  destruct L as [|l2 L].
  - cbn [join rtrim]. now destruct (rstrip l).
  - rewrite join_cons, rstrip_app.
    change ([nl] ++ join [nl] (l2 :: L)) with (nl :: join [nl] (l2 :: L)).
    cbn [rstrip]. rewrite IH.
    change (rtrim (l :: l2 :: L)) with
      (match rtrim (l2 :: L) with
       | [] => match rstrip l with [] => [] | m => [m] end
       | R => l :: R
       end).
    pose proof (@rtrim_join_nonnil (l2 :: L)) as Hne.
    destruct (rtrim (l2 :: L)) as [|r R].
    + cbn [join]. change (isspace nl) with true. cbv iota.
      now destruct (rstrip l).
    + destruct (join [nl] (r :: R)) as [|x j] eqn:E.
      * exfalso. now apply Hne.
      * rewrite join_cons, E. reflexivity.
Qed.

Lemma lstrip_join (L : list str) :
  lstrip (join [nl] L) = join [nl] (ltrim L).
Proof.
  induction L as [|l L IH]; [reflexivity|].
  destruct L as [|l2 L].
  - cbn [join ltrim]. now destruct (lstrip l).
  - rewrite join_cons, lstrip_app.
    change ([nl] ++ join [nl] (l2 :: L)) with (nl :: join [nl] (l2 :: L)).
    change (ltrim (l :: l2 :: L)) with
      (match lstrip l with [] => ltrim (l2 :: L) | m => m :: l2 :: L end).
    destruct (lstrip l) as [|x m].
    + cbn [lstrip]. change (isspace nl) with true. cbv iota. exact IH.
    + now rewrite join_cons.
Qed.

Lemma strip_join (L : list str) :
  strip (join [nl] L) = join [nl] (ltrim (rtrim L)).
Proof. unfold strip. now rewrite rstrip_join, lstrip_join. Qed.

(** *** [splitlines] *)

Lemma splitlines_nl (s : str) : splitlines (nl :: s) = [] :: splitlines s.
Proof. now destruct s. Qed.

Lemma splitlines_char (c : codepoint) (s : str) :
  is_linebreak c = false ->
  splitlines (c :: s) =
  match splitlines s with [] => [[c]] | l :: ls => (c :: l) :: ls end.
Proof. intros H. cbn [splitlines]. now rewrite H. Qed.

Lemma splitlines_line (l rest : str) :
  no_linebreak l = true ->
  splitlines (l ++ nl :: rest) = l :: splitlines rest.
Proof.
  induction l as [|c l IH]; intros H.
  - apply splitlines_nl.
  - cbn [no_linebreak forallb] in H. apply andb_true_iff in H as [Hc H].
    apply negb_true_iff in Hc.
    change ((c :: l) ++ nl :: rest) with (c :: (l ++ nl :: rest)).
    rewrite (@splitlines_char _ _ Hc), (IH H). reflexivity.
Qed.

Lemma splitlines_one (l : str) :
  no_linebreak l = true -> l <> [] -> splitlines l = [l].
Proof.
  induction l as [|c l IH]; intros H Hne; [easy|].
  cbn [no_linebreak forallb] in H. apply andb_true_iff in H as [Hc H].
  apply negb_true_iff in Hc. rewrite (@splitlines_char _ _ Hc).
  destruct l as [|d l]; [reflexivity|].
  rewrite IH; [reflexivity | exact H | discriminate].
Qed.

Lemma splitlines_no_linebreak (s : str) :
  Forall (fun l => no_linebreak l = true) (splitlines s).
Proof.
  remember (List.length s) as n eqn:Hn. revert s Hn.
  induction n as [n IH] using lt_wf_ind. intros s Hn.
  destruct s as [|c s]; [constructor|].
  cbn [splitlines]. destruct (is_linebreak c) eqn:Ec.
  - constructor; [reflexivity|].
    destruct s as [|d s]; [constructor|].
    destruct ((c =? cr)%N && (d =? nl)%N).
    + eapply IH; [|reflexivity]. subst n. simpl. lia.
    + eapply IH; [|reflexivity]. subst n. simpl. lia.
  - assert (Forall (fun l => no_linebreak l = true) (splitlines s)) as H
      by (eapply IH; [|reflexivity]; subst n; simpl; lia).
    destruct (splitlines s) as [|l ls].
    + repeat constructor. cbn. now rewrite Ec.
    + inversion H as [|? ? Hl Hls]; subst. constructor; [|exact Hls].
      cbn [no_linebreak forallb]. rewrite Ec. exact Hl.
Qed.

Lemma splitlines_join (T : list str) :
  Forall (fun l => no_linebreak l = true) T ->
  last T [0%N] <> [] ->
  splitlines (join [nl] T) = T.
Proof.
  induction T as [|l T IH]; intros Hall Hlast; [reflexivity|].
  inversion Hall as [|? ? Hl HT]; subst.
  destruct T as [|l2 T].
  - cbn [join]. now apply splitlines_one.
  - rewrite join_cons. change ([nl] ++ ?x) with (nl :: x).
    rewrite (@splitlines_line _ _ Hl). f_equal. now apply IH.
Qed.
End LineFacts.

(** ** The white-space steps of [clean_code] *)

Section NormalizeFacts.
Import Lines Listing.

Let good (l : str) : Prop := no_linebreak l = true /\ rstrip l = l.

Lemma fixed_blank_nil (l : str) : rstrip l = l -> blank l = true -> l = [].
Proof.
  intros H Hb. rewrite blank_all_space in Hb.
  apply rstrip_nil_iff in Hb. congruence.
Qed.

Lemma no_blank_run_cons (a b : str) (L : list str) :
  no_blank_run (a :: b :: L) =
  negb (blank a && blank b) && no_blank_run (b :: L).
Proof. reflexivity. Qed.

Lemma blank_strip (l : str) :
  blank l = match strip l with [] => true | _ :: _ => false end.
Proof. reflexivity. Qed.

Lemma no_linebreak_rstrip (l : str) :
  no_linebreak l = true -> no_linebreak (rstrip l) = true.
Proof.
  induction l as [|c l IH]; [reflexivity|].
  cbn [no_linebreak forallb rstrip]. intros H.
  apply andb_true_iff in H as [Hc H]. specialize (IH H).
  destruct (rstrip l) as [|x r].
  - destruct (isspace c); [reflexivity|]. cbn. now rewrite Hc.
  - cbn [forallb]. rewrite Hc. exact IH.
Qed.

Lemma no_linebreak_lstrip (l : str) :
  no_linebreak l = true -> no_linebreak (lstrip l) = true.
Proof.
  induction l as [|c l IH]; [reflexivity|].
  cbn [no_linebreak forallb lstrip]. intros H.
  destruct (isspace c); [|exact H].
  apply andb_true_iff in H as [_ H]. now apply IH.
Qed.

Lemma good_lines (s : str) : Forall good (map rstrip (splitlines s)).
Proof.
  apply Forall_map. eapply Forall_impl; [|apply splitlines_no_linebreak].
  intros l Hl. split; [now apply no_linebreak_rstrip | apply rstrip_idem].
Qed.

(** *** The collapsing loop *)

Lemma collapse_good (X : list str) (b : bool) :
  Forall good X -> Forall good (collapse b X).
Proof.
  intros H. revert b. induction H as [|l X Hl _ IH]; intros b; [constructor|].
  cbn [collapse]. destruct (strip l).
  - destruct b; [apply IH|]. constructor; [now split | apply IH].
  - constructor; [exact Hl | apply IH].
Qed.

Lemma collapse_run (X : list str) (b : bool) :
  no_blank_run (collapse b X) = true /\
  (b = true ->
   match collapse b X with l :: _ => blank l = false | [] => True end).
Proof.
  revert b. induction X as [|l X IH]; intros b; [now split|].
  cbn [collapse]. destruct (strip l) as [|x m] eqn:E.
  - destruct b; [apply IH|]. split; [|discriminate].
    destruct (IH true) as [H1 H2]. specialize (H2 eq_refl).
    destruct (collapse true X) as [|y C]; [reflexivity|].
    rewrite no_blank_run_cons. now rewrite H2, andb_false_r, H1.
  - assert (blank l = false) as Hb by (rewrite blank_strip; now rewrite E).
    split; [|intros _; exact Hb].
    destruct (IH false) as [H1 _].
    destruct (collapse false X) as [|y C]; [reflexivity|].
    rewrite no_blank_run_cons. now rewrite Hb, H1.
Qed.

Lemma collapse_fixed (T : list str) (b : bool) :
  Forall good T -> no_blank_run T = true ->
  (b = true -> match T with l :: _ => blank l = false | [] => True end) ->
  collapse b T = T.
Proof.
  intros H. revert b. induction H as [|l T [_ Hl] _ IH]; intros b Hrun Hb;
    [reflexivity|].
  assert (no_blank_run T = true) as HrunT.
  { destruct T as [|y T]; [reflexivity|]. rewrite no_blank_run_cons in Hrun.
    now apply andb_true_iff in Hrun as [_ Hrun]. }
  cbn [collapse]. destruct (strip l) as [|x m] eqn:E.
  - assert (blank l = true) as Hbl by (rewrite blank_strip; now rewrite E).
    destruct b; [specialize (Hb eq_refl); congruence|].
    rewrite (@fixed_blank_nil l Hl Hbl). f_equal.
    apply IH; [exact HrunT|]. intros _.
    destruct T as [|y T]; [exact I|]. rewrite no_blank_run_cons in Hrun.
    apply andb_true_iff in Hrun as [Hrun _]. rewrite Hbl in Hrun.
    now destruct (blank y).
  - f_equal. apply IH; [exact HrunT | discriminate].
Qed.

(** *** The lines left by [strip] *)

Lemma no_blank_run_app (A B : list str) :
  no_blank_run (A ++ B) = true ->
  no_blank_run A = true /\ no_blank_run B = true.
Proof.
  induction A as [|a A IH]; intros H; [now split|].
  destruct A as [|a2 A].
  - split; [reflexivity|]. destruct B as [|b B]; [reflexivity|].
    cbn [app] in H. rewrite no_blank_run_cons in H.
    now apply andb_true_iff in H as [_ H].
  - change (no_blank_run (a :: a2 :: A ++ B) = true) in H.
    rewrite no_blank_run_cons in H. apply andb_true_iff in H as [H1 H].
    destruct (IH H) as [HA HB]. split; [|exact HB].
    rewrite no_blank_run_cons. now rewrite H1, HA.
Qed.

Lemma rtrim_prefix (L : list str) :
  Forall good L -> exists X, L = rtrim L ++ X.
Proof.
  induction 1 as [|l L [_ Hl] _ [X IH]]; [now exists []|].
  cbn [rtrim]. destruct (rtrim L) as [|r R].
  - rewrite Hl. destruct l as [|x m].
    + now exists ([] :: L).
    + now exists L.
  - exists X. cbn [app]. now rewrite IH at 1.
Qed.

Lemma rtrim_last (L : list str) : last (rtrim L) [0%N] <> [].
Proof.
  induction L as [|l L IH]; [discriminate|].
  cbn [rtrim]. destruct (rtrim L) as [|r R].
  - destruct (rstrip l); discriminate.
  - exact IH.
Qed.

Lemma ltrim_shape (R : list str) :
  ltrim R = [] \/
  exists X l R', R = X ++ l :: R' /\ ltrim R = lstrip l :: R' /\
                 lstrip l <> [].
Proof.
  induction R as [|l R IH]; [now left|].
  cbn [ltrim]. destruct (lstrip l) as [|x m] eqn:E.
  - destruct IH as [IH | [X [l' [R' [H1 [H2 H3]]]]]]; [now left|].
    right. exists (l :: X), l', R'. repeat split; try assumption.
    now rewrite H1.
  - right. exists [], l, R. rewrite E. now repeat split.
Qed.

Lemma ltrim_last (R : list str) :
  last R [0%N] <> [] -> last (ltrim R) [0%N] <> [].
Proof.
  induction R as [|l R IH]; intros H; [exact H|].
  cbn [ltrim]. destruct (lstrip l) as [|x m] eqn:E.
  - apply IH. destruct R as [|l2 R]; [discriminate | exact H].
  - destruct R as [|l2 R]; [discriminate | exact H].
Qed.

Lemma tidy_strip (C : list str) :
  Forall good C -> no_blank_run C = true -> tidy (ltrim (rtrim C)).
Proof.
  intros Hgood Hrun.
  destruct (rtrim_prefix Hgood) as [X HX].
  assert (Forall good (rtrim C) /\ no_blank_run (rtrim C) = true) as [HgR HrR].
  { rewrite HX in Hgood, Hrun. apply Forall_app in Hgood as [Hgood _].
    apply no_blank_run_app in Hrun as [Hrun _]. now split. }
  pose proof (ltrim_last _ (rtrim_last C)) as Hlast.
  destruct (ltrim_shape (rtrim C)) as [E | [Y [l [R' [H1 [H2 H3]]]]]].
  - rewrite E. repeat split; [constructor | discriminate].
  - rewrite H2 in Hlast |- *. rewrite H1 in HgR, HrR.
    apply Forall_app in HgR as [_ HgR].
    apply no_blank_run_app in HrR as [_ HrR].
    inversion HgR as [|? ? [Hl1 Hl2] HgR']; subst.
    repeat split.
    + constructor; [|exact HgR'].
      split; [now apply no_linebreak_lstrip | now apply rstrip_lstrip_fixed].
    + destruct R' as [|y R']; [reflexivity|].
      rewrite no_blank_run_cons in HrR |- *.
      apply andb_true_iff in HrR as [_ HrR]. rewrite HrR, andb_true_r.
      rewrite (blank_all_space (lstrip l)).
      destruct (all_space (lstrip l)) eqn:Es; [|reflexivity].
      apply lstrip_nil_iff in Es. rewrite lstrip_idem in Es. contradiction.
    + exact Hlast.
    + apply lstrip_idem.
    + exact H3.
Qed.

Lemma rtrim_fixed (T : list str) :
  Forall good T -> last T [0%N] <> [] -> rtrim T = T.
Proof.
  induction 1 as [|l T [_ Hl] _ IH]; intros Hlast; [reflexivity|].
  cbn [rtrim]. destruct T as [|l2 T].
  - cbn [rtrim]. rewrite Hl.
    destruct l; [now contradiction Hlast | reflexivity].
  - rewrite IH by exact Hlast. reflexivity.
Qed.

(** *** Normal forms *)

Lemma normalize_tidy (s : str) :
  exists T, normalize_whitespace s = join [nl] T /\ tidy T.
Proof.
  unfold normalize_whitespace. rewrite strip_join.
  eexists. split; [reflexivity|].
  apply tidy_strip.
  - apply collapse_good, good_lines.
  - apply collapse_run.
Qed.

Lemma normalize_fixed (T : list str) :
  tidy T -> normalize_whitespace (join [nl] T) = join [nl] T.
Proof.
  intros [Hgood [Hrun [Hlast Hfirst]]]. unfold normalize_whitespace.
  rewrite splitlines_join;
    [|eapply Forall_impl; [|exact Hgood]; now intros l [H _] | exact Hlast].
  assert (map rstrip T = T) as ->.
  { clear -Hgood. induction Hgood as [|l T [_ Hl] _ IH]; [reflexivity|].
    cbn [map]. now rewrite Hl, IH. }
  rewrite collapse_fixed; [|exact Hgood | exact Hrun | discriminate].
  rewrite strip_join, (rtrim_fixed Hgood Hlast).
  destruct T as [|l T]; [reflexivity|]. destruct Hfirst as [Hl Hne].
  cbn [ltrim]. rewrite Hl. now destruct l.
Qed.

Lemma normalize_idem (s : str) :
  normalize_whitespace (normalize_whitespace s) = normalize_whitespace s.
Proof.
  destruct (normalize_tidy s) as [T [-> HT]]. now apply normalize_fixed.
Qed.

Lemma normalize_lines (s : str) :
  tidy (splitlines (normalize_whitespace s)) /\
  normalize_whitespace s = join [nl] (splitlines (normalize_whitespace s)).
Proof.
  destruct (normalize_tidy s) as [T [-> HT]].
  assert (splitlines (join [nl] T) = T) as ->; [|now split].
  destruct HT as [Hgood [_ [Hlast _]]].
  apply splitlines_join; [|exact Hlast].
  eapply Forall_impl; [|exact Hgood]. now intros l [H _].
Qed.
End NormalizeFacts.

(** ** Matches of the reference patterns *)

Section MatchFacts.
Variable A : Type.
Variable k : option codepoint -> str -> option A.

Lemma rmatch_seq (r1 r2 : re) (prev : option codepoint) (s : str) :
  rmatch (Seq r1 r2) prev s k =
  rmatch r1 prev s (fun p t => rmatch r2 p t k).
Proof. reflexivity. Qed.

Lemma rmatch_chr (cs : cset) (prev : option codepoint) (c : codepoint)
    (s : str) :
  cmatch cs c = true -> rmatch (Chr cs) prev (c :: s) k = k (Some c) s.
Proof. intros H. cbn [rmatch]. now rewrite H. Qed.

(** A greedy repetition gives way as far as the rest needs. *)
Lemma rmatch_star_none (cs : cset) (prev : option codepoint) (s : str) :
  (forall p, k p s <> None) -> rmatch (Star cs) prev s k <> None.
Proof.
  intros Hk. cbn [rmatch]. revert prev. destruct s as [|c s]; intros prev.
  - apply Hk.
  - destruct (cmatch cs c); [|apply Hk].
    match goal with |- match ?x with _ => _ end <> None => destruct x end;
      [discriminate | apply Hk].
Qed.

Lemma rmatch_star_many (cs : cset) (a : str) (prev : option codepoint)
    (s : str) :
  forallb (cmatch cs) a = true ->
  (forall p, k p s <> None) -> rmatch (Star cs) prev (a ++ s) k <> None.
Proof.
  intros Ha Hk. revert prev. induction a as [|c a IH]; intros prev.
  - now apply rmatch_star_none.
  - cbn [forallb] in Ha. apply andb_true_iff in Ha as [Hc Ha].
    specialize (IH Ha (Some c)). cbn [rmatch app] in IH |- *. rewrite Hc.
    match goal with |- match ?x with _ => _ end <> None => destruct x end;
      [discriminate | contradiction].
Qed.
End MatchFacts.

Section WordFacts.
Variable A : Type.

Lemma rmatch_word (w : str) (k : option codepoint -> str -> option A)
    (prev : option codepoint) (s : str) :
  (forall p, k p s <> None) -> rmatch (word w) prev (w ++ s) k <> None.
Proof.
  revert k prev. induction w as [|c w IH]; intros k prev Hk.
  - apply Hk.
  - cbn [word app]. rewrite rmatch_seq, rmatch_chr by apply N.eqb_refl.
    now apply IH.
Qed.
End WordFacts.

Lemma search_from_app (r : re) (pre s : str) (prev : option codepoint) :
  (forall p, match_at r p s <> None) -> search_from r prev (pre ++ s) = true.
Proof.
  intros H. revert prev. induction pre as [|c pre IH]; intros prev.
  - cbn [app]. specialize (H prev). destruct s; cbn [search_from];
      now destruct (match_at r prev _).
  - cbn [app search_from]. destruct (match_at r prev _); [reflexivity|].
    apply IH.
Qed.

Section RequireFacts.
Import Lines Listing.

(** A [require] call that names [w] in a quoted string, after any path. *)
Lemma require_matches (w ws1 segs ws2 post : str) (q1 q2 : codepoint)
    (prev : option codepoint) :
  all_space ws1 = true -> cmatch quote q1 = true ->
  forallb (cmatch no_quote) segs = true ->
  cmatch quote q2 = true -> all_space ws2 = true ->
  match_at (require_pattern w) prev
    ($"require(" ++ ws1 ++ [q1] ++ segs ++ w ++ [q2] ++ ws2 ++ $")" ++ post)
  <> None.
Proof.
  intros H1 Hq1 Hsegs Hq2 H2. unfold match_at, require_pattern.
  cbn [seq]. rewrite rmatch_seq. apply rmatch_word. intros p1.
  rewrite rmatch_seq. apply rmatch_star_many; [exact H1|]. intros p2.
  cbn [app]. rewrite rmatch_seq, rmatch_chr by exact Hq1.
  rewrite rmatch_seq. apply rmatch_star_many; [exact Hsegs|]. intros p3.
  rewrite rmatch_seq. apply rmatch_word. intros p4.
  cbn [app]. rewrite rmatch_seq, rmatch_chr by exact Hq2.
  rewrite rmatch_seq. apply rmatch_star_many; [exact H2|]. intros p5.
  rewrite rmatch_seq. apply rmatch_word. intros p6. discriminate.
Qed.
End RequireFacts.

(** ** The Reference Resolver *)

Section ResolverFacts.
Import Lines Listing.

Variable set_iter : list str -> list str.
Hypothesis set_iter_perm :
  forall l, Permutation (set_iter l) (nodup str_eq_dec l).

Lemma set_iter_In (l : list str) (x : str) : In x (set_iter l) <-> In x l.
Proof.
  split; intros H.
  - apply (Permutation_in _ (set_iter_perm l)) in H.
    now apply nodup_In in H.
  - apply (Permutation_in _ (Permutation_sym (set_iter_perm l))).
    now apply nodup_In.
Qed.

Lemma set_iter_NoDup (l : list str) : NoDup (set_iter l).
Proof.
  eapply Permutation_NoDup; [symmetry; apply set_iter_perm|].
  apply NoDup_nodup.
Qed.

Lemma set_iter_nil (l : list str) : set_iter l = [] <-> l = [].
Proof.
  split; intros H.
  - destruct l as [|x l]; [reflexivity|].
    assert (In x (set_iter (x :: l))) as Hx by (apply set_iter_In; now left).
    rewrite H in Hx. destruct Hx.
  - subst l. apply Permutation_nil. symmetry. apply set_iter_perm.
Qed.

Lemma sorted_by_nil (A : Type) (key : A -> str) (l : list A) :
  sorted_by key l = [] <-> l = [].
Proof.
  split; intros H; [|now subst].
  apply Permutation_nil. rewrite <- H. apply sorted_by_perm.
Qed.


(** The entries [find_called_by] reports. *)
Lemma find_called_by_list (fc : corpus) (target : Path) :
  exists L,
    (forall n, In n L <-> In n (callers fc target)) /\
    find_called_by set_iter fc target =
    match L with [] => $"None" | _ :: _ => join $", " L end.
Proof.
  unfold find_called_by.
  exists (sorted_by lower (set_iter (callers fc target))). split.
  - intros n. now rewrite sorted_by_In, set_iter_In.
  - now destruct (sorted_by lower (set_iter (callers fc target))).
Qed.

Lemma callers_In (fc : corpus) (target caller : Path) (content : str) :
  In (caller, content) fc -> path_eqb caller target = false ->
  existsb (fun p => search p content) (patterns target) = true ->
  In (name caller) (callers fc target).
Proof.
  intros Hin Hne Hs. unfold callers.
  apply (in_map (fun kv : Path * str => name (fst kv)) _ (caller, content)).
  apply filter_In. split; [exact Hin|]. now rewrite Hne.
Qed.
End ResolverFacts.

(** The caller list is computed from the other files only. *)
Lemma callers_others (fc : Listing.corpus) (target : Path) :
  Listing.callers fc target =
  Listing.callers
    (filter (fun kv : Path * str => negb (path_eqb (fst kv) target)) fc)
    target.
Proof.
  unfold Listing.callers. f_equal.
  induction fc as [|[c t] fc IH]; [reflexivity|].
  cbn [filter fst]. destruct (path_eqb c target) eqn:E; cbn [negb].
  - exact IH.
  - cbn [filter]. rewrite E.
    destruct (existsb _ _); [now rewrite IH | exact IH].
Qed.

Lemma filter_dict_set (fc : Listing.corpus) (target : Path) (content : str) :
  filter (fun kv : Path * str => negb (path_eqb (fst kv) target))
    (Listing.dict_set target content fc) =
  filter (fun kv : Path * str => negb (path_eqb (fst kv) target)) fc.
Proof.
  assert (path_eqb target target = true) as Ht by now apply path_eqb_eq.
  induction fc as [|[c t] fc IH]; cbn [Listing.dict_set filter fst].
  - now rewrite Ht.
  - destruct (path_eqb target c) eqn:E.
    + apply path_eqb_eq in E. subst c. cbn [filter fst]. now rewrite Ht.
    + cbn [filter fst]. now rewrite IH.
Qed.

(** ** The Code Normalizer *)

Section CleanCodeFacts.
Import Lines Listing.

Lemma memb_app (a : str) (l1 l2 : list str) :
  memb a (l1 ++ l2) = memb a l1 || memb a l2.
Proof. unfold memb. apply existsb_app. Qed.

(** No comment is stripped for another extension. *)
Lemma strip_comments_other (ext content : str) :
  memb ext comment_exts = false -> strip_comments ext content = content.
Proof.
  unfold comment_exts. rewrite memb_app. intros H.
  apply orb_false_iff in H as [Hjs H].
  cbn [memb existsb] in H.
  repeat (apply orb_false_iff in H as [?E H]).
  unfold strip_comments. cbn [memb existsb].
  now rewrite Hjs, E, E0, E1, E2, E3, E4.
Qed.


Lemma tidy_first_last (T : list str) :
  tidy T ->
  (forall l, hd_error T = Some l -> blank l = false) /\
  (forall l, T <> [] -> last T [] = l -> blank l = false).
Proof.
  intros [Hgood [_ [Hlast Hfirst]]]. split.
  - intros l Hl. destruct T as [|l' T]; [discriminate|].
    injection Hl as ->. destruct Hfirst as [Hf Hne].
    rewrite blank_all_space. destruct (all_space l) eqn:E; [|reflexivity].
    apply lstrip_nil_iff in E. congruence.
  - intros l Hne <-.
    assert (last T [] = last T [0%N]) as E.
    { clear -Hne. induction T as [|a T IH]; [contradiction|].
      destruct T as [|b T]; [reflexivity|]. apply IH. discriminate. }
    rewrite E.
    assert (rstrip (last T [0%N]) = last T [0%N]) as Hr.
    { clear -Hgood Hne. induction Hgood as [|a T [_ Ha] HT IH];
        [contradiction|].
      destruct T as [|b T]; [exact Ha|]. apply IH. discriminate. }
    destruct (blank (last T [0%N])) eqn:Eb; [|reflexivity].
    apply (@fixed_blank_nil _ Hr) in Eb. contradiction.
Qed.
End CleanCodeFacts.

(** ** A run of blank lines between two lines of text *)

Section BlankRunFacts.
Import Lines Listing.

Lemma linebreak_isspace (c : codepoint) :
  isspace c = false -> is_linebreak c = false.
Proof.
  unfold isspace, is_linebreak. intros H.
  repeat (apply orb_false_iff in H; destruct H as [H ?]).
  rewrite ?andb_false_iff, ?N.leb_gt, ?N.eqb_neq in *.
  rewrite !orb_false_iff, !andb_false_iff, !N.leb_gt, !N.eqb_neq. lia.
Qed.




End BlankRunFacts.


Section BlankRunCollapse.
Import Lines Listing.












End BlankRunCollapse.

(** * The claims *)

Section Claims.
Import Lines Listing.

(** C1, as stated, fails: for a file of another extension [clean_code]
    still normalises white space, so a text with trailing spaces is not
    returned as it is. *)
Lemma clean_code_other_extension_changes_text :
  memb (lower (suffix [$"notes.txt"])) comment_exts = false /\
  clean_code [$"notes.txt"] ($"a  " ++ [nl]) = $"a" /\
  clean_code [$"notes.txt"] ($"a  " ++ [nl]) <> $"a  " ++ [nl].
Proof. repeat split. discriminate. Qed.

(** C1, amended: for a file whose extension is none of the
    comment-stripping ones, [clean_code] strips no comment: its result is
    the white-space normalisation of the raw text, and a text that is
    already normalised is returned identical. *)
Theorem clean_code_other_extension (path : Path) (content : str) :
  memb (lower (suffix path)) comment_exts = false ->
  clean_code path content = normalize_whitespace content /\
  clean_code path (normalize_whitespace content) =
  normalize_whitespace content.
Proof.
  intros H. unfold clean_code. rewrite !(@strip_comments_other _ _ H).
  split; [reflexivity | apply normalize_idem].
Qed.

Lemma clean_code_other_extension_witness :
  clean_code [$"docs"; $"notes.txt"] ($"  a  " ++ [nl; nl; nl] ++ $"b ")
  = normalize_whitespace ($"  a  " ++ [nl; nl; nl] ++ $"b ") /\
  clean_code [$"docs"; $"notes.txt"]
    (normalize_whitespace ($"  a  " ++ [nl; nl; nl] ++ $"b "))
  = normalize_whitespace ($"  a  " ++ [nl; nl; nl] ++ $"b ").
Proof.
  apply (@clean_code_other_extension [$"docs"; $"notes.txt"]
           ($"  a  " ++ [nl; nl; nl] ++ $"b ")).
  reflexivity.
Defined.

(** C2, as stated, fails: in a [.js] file the removal of one block
    comment can leave the two halves of another one next to each other,
    which a second pass then removes. *)
Lemma clean_code_second_pass_strips_more :
  clean_code [$"a.js"] $"//**/**/" = $"/**/" /\
  clean_code [$"a.js"] (clean_code [$"a.js"] $"//**/**/") = [] /\
  clean_code [$"a.js"] (clean_code [$"a.js"] $"//**/**/")
  <> clean_code [$"a.js"] $"//**/**/".
Proof. repeat split. discriminate. Qed.

(** C2, amended: [clean_code] is idempotent on every text whose cleaned
    form holds nothing the comment-stripping step of the extension
    removes, and so on every text of a file whose extension is none of
    the comment-stripping ones: the white-space steps collapse and trim
    nothing further on a second pass. *)
Theorem clean_code_idempotent (path : Path) (content : str) :
  memb (lower (suffix path)) comment_exts = false \/
  strip_comments (lower (suffix path)) (clean_code path content) =
  clean_code path content ->
  clean_code path (clean_code path content) = clean_code path content.
Proof.
  intros H.
  assert (strip_comments (lower (suffix path)) (clean_code path content) =
          clean_code path content) as E.
  { destruct H as [H | H]; [now apply strip_comments_other | exact H]. }
  unfold clean_code at 1. rewrite E. unfold clean_code.
  apply normalize_idem.
Qed.

Lemma clean_code_idempotent_witness :
  clean_code [$"app.js"]
    (clean_code [$"app.js"]
       ($"/* header */" ++ [nl; nl; nl] ++ $"let x = 1;  " ++ [nl]
        ++ $"  // note" ++ [nl]))
  = clean_code [$"app.js"]
      ($"/* header */" ++ [nl; nl; nl] ++ $"let x = 1;  " ++ [nl]
       ++ $"  // note" ++ [nl]).
Proof.
  apply (@clean_code_idempotent [$"app.js"]
           ($"/* header */" ++ [nl; nl; nl] ++ $"let x = 1;  " ++ [nl]
            ++ $"  // note" ++ [nl])).
  right. reflexivity.
Defined.

End Claims.

Section ResolverClaims.
Import Lines Listing.

(** C3: the caller list of a target is computed from the other files
    only: it is the one of the corpus without the target, it stays the
    same whatever text the target itself holds, and a corpus of the
    target alone gives the sentinel. *)
Theorem find_called_by_excludes_target
    (set_iter : list str -> list str) (fc : corpus) (target : Path)
    (content : str) :
  (forall l, Permutation (set_iter l) (nodup str_eq_dec l)) ->
  callers fc target =
  callers
    (filter (fun kv : Path * str => negb (path_eqb (fst kv) target)) fc)
    target /\
  find_called_by set_iter (dict_set target content fc) target =
  find_called_by set_iter fc target /\
  find_called_by set_iter [(target, content)] target = $"None".
Proof.
  intros Hperm. split; [apply callers_others | split].
  - unfold find_called_by.
    rewrite (callers_others (dict_set target content fc)), filter_dict_set,
      <- callers_others.
    reflexivity.
  - unfold find_called_by, callers. cbn [filter fst].
    rewrite (proj2 (path_eqb_eq target target) eq_refl). cbn [map].
    now rewrite (proj2 (@set_iter_nil _ Hperm []) eq_refl).
Qed.

Lemma find_called_by_excludes_target_witness :
  let target := [$"src"; $"index.js"] in
  let own := $"require('./index')" in
  let fc := [(target, own); ([$"src"; $"app.js"], $"require('./index')")] in
  callers fc target =
  callers
    (filter (fun kv : Path * str => negb (path_eqb (fst kv) target)) fc)
    target /\
  find_called_by (nodup str_eq_dec) (dict_set target [] fc) target =
  find_called_by (nodup str_eq_dec) fc target /\
  find_called_by (nodup str_eq_dec) [(target, [])] target = $"None".
Proof.
  apply (@find_called_by_excludes_target (nodup str_eq_dec)
           [([$"src"; $"index.js"], $"require('./index')");
            ([$"src"; $"app.js"], $"require('./index')")]
           [$"src"; $"index.js"] []).
  intros l. apply Permutation_refl.
Defined.



(** C6: when the text of another file holds a [require] call whose
    quoted string ends, after any path segments, in the name or in the
    stem of the target, the name of that file is in the caller list of
    the target; so a file with require of ./helperModule is a caller of
    helperModule.js. *)
Theorem find_called_by_require
    (set_iter : list str -> list str) (fc : corpus) (target caller : Path)
    (content pre ws1 segs w ws2 post : str) (q1 q2 : codepoint) :
  (forall l, Permutation (set_iter l) (nodup str_eq_dec l)) ->
  In (caller, content) fc ->
  path_eqb caller target = false ->
  w = name target \/ w = stem target ->
  all_space ws1 = true -> cmatch quote q1 = true ->
  forallb (cmatch no_quote) segs = true ->
  cmatch quote q2 = true -> all_space ws2 = true ->
  content =
  pre ++ $"require(" ++ ws1 ++ [q1] ++ segs ++ w ++ [q2] ++ ws2 ++ $")"
  ++ post ->
  exists L,
    find_called_by set_iter fc target = join $", " L /\
    In (name caller) L.
Proof.
  intros Hperm Hin Hne Hw H1 Hq1 Hsegs Hq2 H2 ->.
  destruct (@find_called_by_list _ Hperm fc target) as [L [HL Hres]].
  assert (In (name caller) L) as HinL.
  { apply HL. eapply callers_In; [exact Hin | exact Hne |].
    assert (search (require_pattern w)
              (pre ++ $"require(" ++ ws1 ++ [q1] ++ segs ++ w ++ [q2]
               ++ ws2 ++ $")" ++ post) = true) as Hs.
    { apply search_from_app. intros p. now apply require_matches. }
    unfold patterns. cbn [existsb].
    destruct Hw as [-> | ->]; rewrite Hs; now rewrite ?orb_true_r. }
  exists L. split; [|exact HinL].
  rewrite Hres. destruct L; [destruct HinL | reflexivity].
Qed.

Lemma find_called_by_require_witness :
  exists L,
    find_called_by (nodup str_eq_dec)
      [([$"lib"; $"helperModule.js"], $"module.exports = {};");
       ([$"src"; $"B.js"],
        $"const h = require(" ++ [dquote] ++ $"./helperModule"
        ++ [dquote] ++ $");")]
      [$"lib"; $"helperModule.js"] = join $", " L /\
    In (name [$"src"; $"B.js"]) L.
Proof.
  apply (@find_called_by_require (nodup str_eq_dec)
           [([$"lib"; $"helperModule.js"], $"module.exports = {};");
            ([$"src"; $"B.js"],
             $"const h = require(" ++ [dquote] ++ $"./helperModule"
             ++ [dquote] ++ $");")]
           [$"lib"; $"helperModule.js"] [$"src"; $"B.js"]
           ($"const h = require(" ++ [dquote] ++ $"./helperModule"
            ++ [dquote] ++ $");")
           $"const h = " [] $"./" $"helperModule" [] $";" dquote dquote).
  - intros l. apply Permutation_refl.
  - right. left. reflexivity.
  - reflexivity.
  - right. reflexivity.
  - reflexivity.
  - reflexivity.
  - reflexivity.
  - reflexivity.
  - reflexivity.
  - reflexivity.
Defined.
End ResolverClaims.

Section ReportClaims.
Import Lines Listing.



End ReportClaims.

Section ReplaceClaims.
Import TmpReplace.

(** C9: the run writes a file exactly when the file passes the tests of
    the loop, its text can be read and the substitutions change it, and
    then it writes the substituted text; the list it prints holds the
    paths of the written files, in the order of the writes, and the
    total it prints is their number. *)
Theorem run_writes_changed_files (sep : codepoint) (tree : list node) :
  let e := run sep tree in
  (forall p t',
      In (p, t') (written e) <->
      exists n, In n tree /\ in_scope n = true /\ rel n = p /\
        exists t, text n = Some t /\
                  t' = substitute replacements t /\ t' <> t) /\
  modified e = map (fun w => reported sep (fst w)) (written e) /\
  printed e =
  [$"Modified files:"] ++ modified e
  ++ [$"Total: " ++ decimal (List.length (written e)) ++ $" files updated"].
Proof.
  cbv zeta. split; [|split].
  - intros p t'. apply run_written.
  - apply run_modified.
  - unfold printed. now rewrite run_modified, length_map.
Qed.

(** C10: the substitution pass is idempotent: what it gives holds none of
    the searched strings, a second pass leaves it as it is, and a second
    run over the tree the first run left writes nothing and lists
    nothing. *)
Theorem substitute_idempotent :
  (forall t,
      substitute replacements (substitute replacements t) =
      substitute replacements t) /\
  (forall r t,
      In r replacements ->
      contains (fst r) (substitute replacements t) = false) /\
  (forall sep tree,
      run sep (after tree (written (run sep tree))) = Effects [] []).
Proof.
  split; [|split].
  - apply closed_table_idempotent, replacements_closed.
  - intros r t Hr. now apply closed_table_absent; [apply replacements_closed|].
  - intros sep tree. apply run_inert, after_inert.
Qed.
End ReplaceClaims.

(** * Further properties of the scripts *)

(** ** Uniqueness of a sorted list *)

Section SortedUnique.
Variable A : Type.
Variable key : A -> str.

Let lt (a b : A) : Prop := ltb (key a) (key b) = true.

Lemma sorted_by_strict (l : list A) :
  NoDup (map key l) -> StronglySorted lt (sorted_by key l).
Proof.
  intros Hnd.
  assert (NoDup (map key (sorted_by key l))) as Hnd'.
  { eapply Permutation_NoDup; [|exact Hnd].
    apply Permutation_map. symmetry. apply sorted_by_perm. }
  pose proof (sorted_by_strongly key l) as Hs.
  induction Hs as [|a m Hs IH Hall]; [constructor|].
  cbn [map] in Hnd'. inversion Hnd' as [|? ? Hnotin Hnd'']; subst.
  constructor; [now apply IH|].
  rewrite Forall_forall in Hall |- *. intros b Hb.
  specialize (Hall b Hb). cbv beta in Hall. unfold lt.
  destruct (ltb (key a) (key b)) eqn:E; [reflexivity|].
  exfalso. apply Hnotin. rewrite (ltb_total _ _ E Hall).
  now apply in_map.
Qed.

Lemma strict_sorted_unique (l1 l2 : list A) :
  StronglySorted lt l1 -> StronglySorted lt l2 -> Permutation l1 l2 ->
  l1 = l2.
Proof.
  intros H1. revert l2. induction H1 as [|a l1 H1 IH Ha]; intros l2 H2 Hp.
  - apply Permutation_nil in Hp. now subst.
  - destruct H2 as [|b l2 H2 Hb].
    + symmetry in Hp. apply Permutation_nil in Hp. discriminate.
    + assert (a = b) as ->.
      { assert (In a (b :: l2)) as Hin
          by (eapply Permutation_in; [exact Hp | now left]).
        assert (In b (a :: l1)) as Hin'
          by (eapply Permutation_in; [symmetry; exact Hp | now left]).
        destruct Hin as [-> | Hin]; [reflexivity|].
        destruct Hin' as [-> | Hin']; [reflexivity|].
        rewrite Forall_forall in Ha, Hb.
        pose proof (Ha _ Hin') as E1. pose proof (Hb _ Hin) as E2.
        unfold lt in E1, E2. apply ltb_asym in E1. congruence. }
      f_equal. apply IH; [exact H2|]. now apply Permutation_cons_inv in Hp.
Qed.

Lemma sorted_by_unique (l1 l2 : list A) :
  Permutation l1 l2 -> NoDup (map key l1) ->
  sorted_by key l1 = sorted_by key l2.
Proof.
  intros Hp Hnd. apply strict_sorted_unique.
  - now apply sorted_by_strict.
  - apply sorted_by_strict. eapply Permutation_NoDup; [|exact Hnd].
    now apply Permutation_map.
  - rewrite !sorted_by_perm. exact Hp.
Qed.
End SortedUnique.

(** ** The File Selector and the Classifier *)

Section SelectorMore.
Import Listing Labels.






End SelectorMore.

Section ClassifierMore.
Import Listing Labels.




End ClassifierMore.

(** ** The Report Assembler *)

Section SectionsMore.
Import Listing.

Lemma flat_map_insert (A : Type) (f : str -> list A) (p : A) (g0 : str)
    (K : list str) :
  NoDup K -> In g0 K ->
  Permutation
    (flat_map (fun g => if str_eqb g0 g then p :: f g else f g) K)
    (p :: flat_map f K).
Proof.
  induction K as [|g K IH]; intros Hnd Hin; [destruct Hin|].
  inversion Hnd as [|? ? Hnotin Hnd']; subst. cbn [flat_map].
  destruct (str_eqb g0 g) eqn:E.
  - apply str_eqb_eq in E. subst g0. cbn [app]. constructor.
    apply Permutation_app_head.
    assert (forall K', ~ In g K' ->
              flat_map (fun g' => if str_eqb g g' then p :: f g' else f g')
                K' = flat_map f K') as Hsame.
    { induction K' as [|g' K' IH']; intros Hn; [reflexivity|].
      cbn [flat_map]. destruct (str_eqb g g') eqn:E'.
      - apply str_eqb_eq in E'. subst g'. exfalso. apply Hn. now left.
      - f_equal. apply IH'. intros H. apply Hn. now right. }
    now rewrite Hsame.
  - destruct Hin as [-> | Hin]; [now rewrite str_eqb_refl in E|].
    rewrite (IH Hnd' Hin). apply Permutation_sym, Permutation_middle.
Qed.

Lemma flat_map_filter_perm (files : list Path) (K : list str) :
  NoDup K -> (forall p, In p files -> In (module_name p) K) ->
  Permutation
    (flat_map (fun g => filter (fun p => str_eqb (module_name p) g) files) K)
    files.
Proof.
  intros Hnd. induction files as [|p files IH]; intros Hall.
  - induction K as [|g K IHK]; [constructor|]. cbn [flat_map filter app].
    inversion Hnd; subst. now apply IHK.
  - cbn [filter].
    eapply Permutation_trans.
    + exact (@flat_map_insert _
               (fun g => filter (fun q => str_eqb (module_name q) g) files)
               p (module_name p) K Hnd (Hall p (or_introl eq_refl))).
    + constructor. apply IH. intros q Hq. apply Hall. now right.
Qed.

Lemma flat_map_perm (A B : Type) (f g : A -> list B) (l : list A) :
  (forall a, Permutation (f a) (g a)) ->
  Permutation (flat_map f l) (flat_map g l).
Proof.
  intros H. induction l as [|a l IH]; [constructor|].
  cbn [flat_map]. now apply Permutation_app.
Qed.

(** X4: the sections divide the files: every file is in one section and
    there once, no section is without a file, and there is no section at
    all exactly when there is no file. *)
Theorem sections_partition (files : list Path) :
  Permutation (flat_map snd (sections files)) files /\
  Forall (fun sec : str * list Path => snd sec <> []) (sections files) /\
  (sections files = [] <-> files = []).
Proof.
  assert (Permutation (flat_map snd (sections files)) files) as Hperm.
  { unfold sections. rewrite flat_map_concat_map, map_map. cbn [snd].
    rewrite <- flat_map_concat_map.
    rewrite (flat_map_perm _
               (fun g => filter (fun p => str_eqb (module_name p) g) files)).
    - apply flat_map_filter_perm.
      + eapply Permutation_NoDup; [symmetry; apply sorted_by_perm|].
        apply grouped_keys_nodup.
      + intros p Hp. apply sorted_by_In, grouped_keys. now exists p.
    - intros g. rewrite sorted_by_perm, grouped_get. apply Permutation_refl. }
  split; [exact Hperm | split].
  - unfold sections. apply Forall_map, Forall_forall. intros g Hg. cbn [snd].
    apply sorted_by_In, grouped_keys in Hg as [p [Hp Hm]].
    intros E. apply sorted_by_nil in E.
    assert (In p (group_get (grouped files) g)) as Hin
      by (rewrite grouped_get; apply filter_In; split;
          [exact Hp | now apply str_eqb_eq]).
    rewrite E in Hin. destruct Hin.
  - split; intros E.
    + rewrite E in Hperm. cbn in Hperm. now apply Permutation_nil in Hperm.
    + subst files. reflexivity.
Qed.
End SectionsMore.

(** ** The Reference Resolver *)

Section ResolverMore.
Import Lines Listing.




(** *** Independence of the iteration order of sets *)

Lemma set_iter_perm_any (s1 s2 : list str -> list str) (l1 l2 : list str) :
  (forall l, Permutation (s1 l) (nodup str_eq_dec l)) ->
  (forall l, Permutation (s2 l) (nodup str_eq_dec l)) ->
  (forall n, In n l1 <-> In n l2) ->
  Permutation (s1 l1) (s2 l2).
Proof.
  intros H1 H2 Hiff. apply NoDup_Permutation.
  - now apply set_iter_NoDup.
  - now apply set_iter_NoDup.
  - intros n. rewrite (@set_iter_In _ H1), (@set_iter_In _ H2). apply Hiff.
Qed.

(** X6: the result of [find_table_used] depends neither on the order in
    which the interpreter iterates a set nor on the order or the
    repetitions of the vocabulary: two vocabularies with the same entries
    give the same result. *)
Theorem find_table_used_order_free
    (s1 s2 : list str -> list str) (names1 names2 : list str) (path : Path) :
  (forall l, Permutation (s1 l) (nodup str_eq_dec l)) ->
  (forall l, Permutation (s2 l) (nodup str_eq_dec l)) ->
  (forall n, In n names1 <-> In n names2) ->
  find_table_used s1 names1 path = find_table_used s2 names2 path.
Proof.
  intros H1 H2 Hiff. unfold find_table_used.
  set (f := fun name : str =>
              contains name (lower (as_posix path))
              || contains name (lower (stem path))).
  assert (forall n, In n (filter f names1) <-> In n (filter f names2)) as Hm.
  { intros n. rewrite !filter_In, Hiff. reflexivity. }
  assert (sorted (s1 (filter f names1)) = sorted (s2 (filter f names2))) as E.
  { unfold sorted. apply sorted_by_unique.
    - now apply set_iter_perm_any.
    - rewrite map_id. now apply set_iter_NoDup. }
  rewrite E.
  destruct (filter f names1) as [|a l1] eqn:E1,
           (filter f names2) as [|b l2] eqn:E2; try reflexivity.
  - exfalso. apply (proj2 (Hm b)). now left.
  - exfalso. apply (proj1 (Hm a)). now left.
Qed.

Lemma find_table_used_order_free_witness :
  find_table_used (nodup str_eq_dec) [$"users"; $"books"; $"users"]
    [$"backend"; $"routes"; $"users_books.js"] =
  find_table_used (fun l => rev (nodup str_eq_dec l)) [$"books"; $"users"]
    [$"backend"; $"routes"; $"users_books.js"].
Proof.
  apply (@find_table_used_order_free (nodup str_eq_dec)
           (fun l => rev (nodup str_eq_dec l))
           [$"users"; $"books"; $"users"] [$"books"; $"users"]
           [$"backend"; $"routes"; $"users_books.js"]).
  - intros l. apply Permutation_refl.
  - intros l. apply Permutation_sym, Permutation_rev.
  - intros n. cbn [In]. tauto.
Defined.


End ResolverMore.

Section PatternsMore.
Import Lines Listing.

(** An [import ... from] or [export ... from] clause naming [w]. *)
Lemma from_matches (w ws segs post : str) (c q1 q2 : codepoint)
    (prev : option codepoint) :
  isspace c = true -> all_space ws = true -> cmatch quote q1 = true ->
  forallb (cmatch no_quote) segs = true -> cmatch quote q2 = true ->
  match_at (from_pattern w) prev
    ($"from" ++ c :: ws ++ [q1] ++ segs ++ w ++ [q2] ++ post) <> None.
Proof.
  intros Hc Hws Hq1 Hsegs Hq2. unfold match_at, from_pattern, Plus.
  cbn [seq]. rewrite rmatch_seq. apply rmatch_word. intros p1.
  rewrite !rmatch_seq, rmatch_chr by exact Hc.
  apply rmatch_star_many; [exact Hws|]. intros p2.
  cbn [app]. rewrite rmatch_seq, rmatch_chr by exact Hq1.
  rewrite rmatch_seq. apply rmatch_star_many; [exact Hsegs|]. intros p3.
  rewrite rmatch_seq. apply rmatch_word. intros p4.
  cbn [app]. rewrite rmatch_seq, rmatch_chr by exact Hq2. discriminate.
Qed.

(** A quoted string that is exactly [w]. *)
Lemma quoted_matches (w post : str) (q1 q2 : codepoint)
    (prev : option codepoint) :
  cmatch quote q1 = true -> cmatch quote q2 = true ->
  match_at (quoted_pattern w) prev ([q1] ++ w ++ [q2] ++ post) <> None.
Proof.
  intros Hq1 Hq2. unfold match_at, quoted_pattern. cbn [seq app].
  rewrite rmatch_seq, rmatch_chr by exact Hq1.
  rewrite rmatch_seq. apply rmatch_word. intros p1.
  cbn [app]. rewrite rmatch_seq, rmatch_chr by exact Hq2. discriminate.
Qed.

(** X8: another file is also listed as a caller when its text holds the
    word from, white space and a quoted string that ends in the name or
    the stem of the target, or a quoted string that is exactly the
    relative path of the target, with or without what follows its last
    dot. *)
Theorem find_called_by_from_or_path
    (set_iter : list str -> list str) (fc : corpus) (target caller : Path)
    (content pre ws segs w post : str) (c q1 q2 : codepoint) :
  (forall l, Permutation (set_iter l) (nodup str_eq_dec l)) ->
  In (caller, content) fc ->
  path_eqb caller target = false ->
  cmatch quote q1 = true -> cmatch quote q2 = true ->
  (w = name target \/ w = stem target) /\
  isspace c = true /\ all_space ws = true /\
  forallb (cmatch no_quote) segs = true /\
  content = pre ++ $"from" ++ c :: ws ++ [q1] ++ segs ++ w ++ [q2] ++ post
  \/
  (w = as_posix target \/ w = rel_no_ext (as_posix target)) /\
  content = pre ++ [q1] ++ w ++ [q2] ++ post ->
  exists L,
    find_called_by set_iter fc target = join $", " L /\
    In (name caller) L.
Proof.
  intros Hperm Hin Hne Hq1 Hq2 Hshape.
  destruct (@find_called_by_list _ Hperm fc target) as [L [HL Hres]].
  assert (In (name caller) L) as HinL.
  { apply HL. eapply callers_In; [exact Hin | exact Hne |].
    unfold patterns. cbn [existsb].
    destruct Hshape as [[Hw [Hc [Hws [Hsegs ->]]]] | [Hw ->]].
    - assert (search (from_pattern w)
                (pre ++ $"from" ++ c :: ws ++ [q1] ++ segs ++ w ++ [q2]
                 ++ post) = true) as Hs.
      { apply search_from_app. intros p. now apply from_matches. }
      destruct Hw as [-> | ->]; rewrite Hs; now rewrite ?orb_true_r.
    - assert (search (quoted_pattern w) (pre ++ [q1] ++ w ++ [q2] ++ post)
              = true) as Hs.
      { apply search_from_app. intros p. now apply quoted_matches. }
      destruct Hw as [-> | ->]; rewrite Hs; now rewrite ?orb_true_r. }
  exists L. split; [|exact HinL].
  rewrite Hres. destruct L; [destruct HinL | reflexivity].
Qed.

Lemma find_called_by_from_or_path_witness :
  exists L,
    find_called_by (nodup str_eq_dec)
      [([$"src"; $"utils"; $"api.js"], []);
       ([$"src"; $"App.js"], $"import api from './utils/api';")]
      [$"src"; $"utils"; $"api.js"] = join $", " L /\
    In (name [$"src"; $"App.js"]) L.
Proof.
  apply (@find_called_by_from_or_path (nodup str_eq_dec)
           [([$"src"; $"utils"; $"api.js"], []);
            ([$"src"; $"App.js"], $"import api from './utils/api';")]
           [$"src"; $"utils"; $"api.js"] [$"src"; $"App.js"]
           $"import api from './utils/api';"
           $"import api " [] $"./utils/" $"api" $";" 32%N squote squote).
  - intros l. apply Permutation_refl.
  - right. left. reflexivity.
  - reflexivity.
  - reflexivity.
  - reflexivity.
  - left. repeat split. right. reflexivity.
Defined.

(** X9: the order of the names [find_called_by] joins can depend on the
    order in which the interpreter iterates a set: for two callers whose
    names differ in case only, two iteration orders give two results. *)
Theorem find_called_by_order_matters :
  let fc := [([$"x"; $"App.js"], $"require('./util')");
             ([$"y"; $"app.js"], $"require('./util')");
             ([$"util.js"], [])] in
  let s1 := nodup str_eq_dec in
  let s2 := fun l => rev (nodup str_eq_dec l) in
  (forall l, Permutation (s1 l) (nodup str_eq_dec l)) /\
  (forall l, Permutation (s2 l) (nodup str_eq_dec l)) /\
  find_called_by s1 fc [$"util.js"] = $"App.js, app.js" /\
  find_called_by s2 fc [$"util.js"] = $"app.js, App.js".
Proof.
  cbv zeta. repeat split.
  - intros l. apply Permutation_refl.
  - intros l. apply Permutation_sym, Permutation_rev.
Qed.
End PatternsMore.

(** ** The lines the Code Normalizer keeps *)

Section NormalizeMore.
Import Lines Listing Kept.

Lemma blank_rstrip (l : str) : blank (rstrip l) = blank l.
Proof. unfold blank, strip. now rewrite rstrip_idem. Qed.

Lemma filter_visible_cons (l : str) (X : list str) :
  filter visible (l :: X) =
  if blank l then filter visible X else l :: filter visible X.
Proof. cbn [filter]. unfold visible at 1. now destruct (blank l). Qed.

Lemma filter_visible_collapse (X : list str) (b : bool) :
  filter visible (collapse b X) = filter visible X.
Proof.
  revert b. induction X as [|l X IH]; intros b; [reflexivity|].
  cbn [collapse]. rewrite (filter_visible_cons l), blank_strip.
  destruct (strip l) as [|x m] eqn:E.
  - destruct b; [apply IH|]. rewrite filter_visible_cons.
    change (blank []) with true. cbv iota. apply IH.
  - rewrite filter_visible_cons, blank_strip, E. f_equal. apply IH.
Qed.

Lemma filter_visible_rstrip (X : list str) :
  filter visible (map rstrip X) = map rstrip (filter visible X).
Proof.
  induction X as [|l X IH]; [reflexivity|].
  cbn [map]. rewrite !filter_visible_cons, blank_rstrip.
  destruct (blank l); cbn [map]; now rewrite IH.
Qed.

Lemma filter_visible_rtrim (C : list str) :
  Forall (fun l => no_linebreak l = true /\ rstrip l = l) C ->
  filter visible (rtrim C) = filter visible C.
Proof.
  induction 1 as [|l C [_ Hl] _ IH]; [reflexivity|].
  cbn [rtrim]. rewrite (filter_visible_cons l C).
  destruct (rtrim C) as [|r R] eqn:ER.
  - rewrite <- IH, Hl. cbn [filter]. rewrite blank_all_space.
    destruct l as [|x m]; [reflexivity|].
    rewrite filter_visible_cons, blank_all_space.
    destruct (all_space (x :: m)) eqn:Es; [|reflexivity].
    apply rstrip_nil_iff in Es. congruence.
  - rewrite filter_visible_cons. now rewrite IH.
Qed.

Lemma filter_visible_ltrim (R : list str) :
  filter visible (ltrim R) =
  match filter visible R with
  | [] => []
  | l :: r => lstrip l :: r
  end.
Proof.
  induction R as [|l R IH]; [reflexivity|].
  cbn [ltrim]. rewrite (filter_visible_cons l R), blank_all_space.
  destruct (lstrip l) as [|x m] eqn:E.
  - apply lstrip_nil_iff in E. rewrite E. exact IH.
  - assert (all_space l = false) as Es.
    { destruct (all_space l) eqn:Es; [|reflexivity].
      apply lstrip_nil_iff in Es. congruence. }
    rewrite Es, filter_visible_cons, blank_all_space.
    assert (all_space (x :: m) = false) as Em.
    { destruct (all_space (x :: m)) eqn:Em; [|reflexivity].
      apply lstrip_nil_iff in Em. rewrite <- E, lstrip_idem in Em.
      congruence. }
    now rewrite Em, E.
Qed.

Lemma normalize_splitlines (s : str) :
  splitlines (normalize_whitespace s) =
  ltrim (rtrim (collapse false (map rstrip (splitlines s)))).
Proof.
  unfold normalize_whitespace. rewrite strip_join.
  assert (tidy (ltrim (rtrim (collapse false (map rstrip (splitlines s))))))
    as [Hgood [_ [Hlast _]]].
  { apply tidy_strip; [apply collapse_good, good_lines | apply collapse_run]. }
  apply splitlines_join; [|exact Hlast].
  eapply Forall_impl; [|exact Hgood]. now intros l [H _].
Qed.

Lemma normalize_visible (s : str) :
  filter visible (splitlines (normalize_whitespace s)) =
  match map rstrip (filter visible (splitlines s)) with
  | [] => []
  | l :: r => lstrip l :: r
  end.
Proof.
  rewrite normalize_splitlines, filter_visible_ltrim, filter_visible_rtrim,
    filter_visible_collapse, filter_visible_rstrip; [reflexivity|].
  apply collapse_good, good_lines.
Qed.

(** The white space of a text and of its lines. *)
Lemma all_space_splitlines (s : str) :
  all_space s = forallb blank (splitlines s).
Proof.
  remember (List.length s) as n eqn:Hn. revert s Hn.
  induction n as [n IH] using lt_wf_ind. intros s Hn.
  destruct s as [|c s]; [reflexivity|].
  cbn [splitlines all_space forallb]. fold (all_space s).
  destruct (is_linebreak c) eqn:Ec.
  - assert (isspace c = true) as Hc.
    { destruct (isspace c) eqn:E; [reflexivity|].
      apply linebreak_isspace in E. congruence. }
    rewrite Hc. cbn [andb forallb]. change (blank []) with true. cbn [andb].
    destruct s as [|d s]; [reflexivity|].
    destruct ((c =? cr)%N && (d =? nl)%N) eqn:Ecrlf.
    + apply andb_true_iff in Ecrlf as [_ Ed]. apply N.eqb_eq in Ed. subst d.
      cbn [all_space forallb]. change (isspace nl) with true. cbn [andb].
      apply (IH (List.length s)); [subst n; simpl; lia | reflexivity].
    + apply (IH (List.length (d :: s))); [subst n; simpl; lia | reflexivity].
  - rewrite (IH (List.length s) ltac:(subst n; simpl; lia) s eq_refl).
    destruct (splitlines s) as [|l ls]; cbn [forallb].
    + rewrite !blank_all_space. cbn [all_space forallb].
      now rewrite !andb_true_r.
    + rewrite !blank_all_space. cbn [all_space forallb].
      fold (all_space l). now rewrite andb_assoc.
Qed.

Lemma filter_visible_nil (X : list str) :
  filter visible X = [] <-> forallb blank X = true.
Proof.
  induction X as [|l X IH]; [now split|].
  rewrite filter_visible_cons. cbn [forallb].
  destruct (blank l); cbn [andb]; [exact IH|].
  split; discriminate.
Qed.

Lemma normalize_nil_iff (s : str) :
  normalize_whitespace s = [] <-> all_space s = true.
Proof.
  rewrite all_space_splitlines, <- filter_visible_nil.
  pose proof (normalize_visible s) as Hv.
  destruct (normalize_tidy s) as [T [ET HT]].
  pose proof (normalize_lines s) as [_ Hjoin].
  split; intros H.
  - rewrite H in Hv. cbn in Hv.
    destruct (filter visible (splitlines s)); [reflexivity | discriminate].
  - rewrite H in Hv. cbn [map] in Hv.
    destruct (tidy_first_last (proj1 (normalize_lines s))) as [Hfirst _].
    rewrite Hjoin.
    destruct (splitlines (normalize_whitespace s)) as [|l L];
      [reflexivity|].
    specialize (Hfirst l eq_refl).
    rewrite filter_visible_cons, Hfirst in Hv. discriminate.
Qed.

(** X10: [clean_code] neither drops nor reorders a line that is not blank:
    the non-blank lines of its result are those of the text left by the
    comment stripping, each without its trailing white space and the first
    one also without its leading white space. *)
Theorem clean_code_keeps_lines (path : Path) (content : str) :
  filter visible (splitlines (clean_code path content)) =
  match
    map rstrip
      (filter visible
         (splitlines (strip_comments (lower (suffix path)) content)))
  with
  | [] => []
  | l :: r => lstrip l :: r
  end.
Proof. unfold clean_code. apply normalize_visible. Qed.

(** X11: [clean_code] gives the empty text, for which the report has no
    code block, exactly when the text left by the comment stripping is
    white space only. *)
Theorem clean_code_empty (path : Path) (content : str) :
  clean_code path content = [] <->
  all_space (strip_comments (lower (suffix path)) content) = true.
Proof. unfold clean_code. apply normalize_nil_iff. Qed.
End NormalizeMore.

(** ** Texts without a comment marker *)

Section MarkerFree.
Import Listing.

Variable c : codepoint.

Lemma rmatch_word_free (A : Type) (w : str) (prev : option codepoint)
    (t : str) (k : option codepoint -> str -> option A) :
  mem c t = false -> rmatch (word (c :: w)) prev t k = None.
Proof.
  intros H. cbn [word]. rewrite rmatch_seq. cbn [rmatch].
  destruct t as [|x t]; [reflexivity|].
  cbn [mem existsb] in H. apply orb_false_iff in H as [H _].
  cbn [cmatch]. rewrite N.eqb_sym. now rewrite H.
Qed.

Lemma rmatch_star_free (A : Type) (cs : cset)
    (k : option codepoint -> str -> option A) :
  (forall p t, mem c t = false -> k p t = None) ->
  forall t prev, mem c t = false -> rmatch (Star cs) prev t k = None.
Proof.
  intros Hk t. cbn [rmatch]. induction t as [|x t IH]; intros prev H.
  - now apply Hk.
  - assert (mem c t = false) as Ht
      by (cbn [mem existsb] in H; now apply orb_false_iff in H as [_ H]).
    destruct (cmatch cs x); [|now apply Hk].
    rewrite (IH (Some x) Ht). now apply Hk.
Qed.

Lemma sub_free (r : re) (repl : str) :
  (forall p t, mem c t = false -> match_at r p t = None) ->
  forall s, mem c s = false -> Re.sub r repl s = s.
Proof.
  intros Hr s. unfold Re.sub. generalize (@None codepoint).
  induction s as [|x s IH]; intros prev H; cbn [sub_scan].
  - now rewrite (Hr prev [] H).
  - rewrite (Hr prev (x :: s) H). f_equal. apply IH.
    cbn [mem existsb] in H. now apply orb_false_iff in H as [_ H].
Qed.
End MarkerFree.

Lemma rmatch_bol (A : Type) (prev : option codepoint) (s : str)
    (k : option codepoint -> str -> option A) :
  rmatch Bol prev s k = if at_bol prev then k prev s else None.
Proof. reflexivity. Qed.

Section MarkerFreeComments.
Import Listing.

Lemma block_comment_free (p : option codepoint) (t : str) :
  mem slash t = false -> match_at block_comment p t = None.
Proof.
  intros H. unfold match_at, block_comment. cbn [seq].
  rewrite rmatch_seq. now apply rmatch_word_free.
Qed.

Lemma line_comment_free (p : option codepoint) (t : str) :
  mem slash t = false -> match_at line_comment p t = None.
Proof.
  intros H. unfold match_at, line_comment. cbn [seq].
  rewrite rmatch_seq, rmatch_bol. destruct (at_bol p); [|reflexivity].
  rewrite rmatch_seq. apply (@rmatch_star_free slash); [|exact H].
  intros q u Hu. rewrite rmatch_seq. now apply rmatch_word_free.
Qed.

Lemma hash_comment_free (p : option codepoint) (t : str) :
  mem 35%N t = false -> match_at hash_comment p t = None.
Proof.
  intros H. unfold match_at, hash_comment. cbn [seq].
  rewrite rmatch_seq, rmatch_bol. destruct (at_bol p); [|reflexivity].
  rewrite rmatch_seq. apply (@rmatch_star_free 35%N); [|exact H].
  intros q u Hu. rewrite rmatch_seq. now apply rmatch_word_free.
Qed.

Lemma strip_slash_free (s : str) :
  mem slash s = false ->
  Re.sub line_comment [] (Re.sub block_comment [] s) = s.
Proof.
  intros H.
  rewrite (@sub_free slash block_comment [] block_comment_free s H).
  exact (@sub_free slash line_comment [] line_comment_free s H).
Qed.

(** X12: comment stripping leaves a text without the comment marker of
    its language as it is: a text without a slash for the extensions with
    [//] and block comments, a text without a hash sign for those with
    [#] comments; [clean_code] then only normalises its white space. *)
Theorem strip_comments_without_marker (path : Path) (content : str) :
  In (lower (suffix path)) (js_like ++ [$".json"]) /\
  mem slash content = false
  \/
  In (lower (suffix path)) [$".py"; $".ps1"; $".yml"; $".yaml"] /\
  mem 35%N content = false ->
  strip_comments (lower (suffix path)) content = content /\
  clean_code path content = normalize_whitespace content.
Proof.
  intros H.
  assert (strip_comments (lower (suffix path)) content = content) as E.
  { destruct H as [[Hext H] | [Hext H]].
    - pose proof (strip_slash_free _ H) as Hs.
      cbn [js_like app In] in Hext.
      repeat (destruct Hext as [<- | Hext]; [exact Hs|]). destruct Hext.
    - pose proof (@sub_free 35%N hash_comment [] hash_comment_free _ H) as Hs.
      cbn [In] in Hext.
      repeat (destruct Hext as [<- | Hext]; [exact Hs|]). destruct Hext. }
  split; [exact E|]. unfold clean_code. now rewrite E.
Qed.

Lemma strip_comments_without_marker_witness :
  strip_comments (lower (suffix [$"src"; $"App.JS"])) $"let a = b * 2;" =
  $"let a = b * 2;" /\
  clean_code [$"src"; $"App.JS"] $"let a = b * 2;" =
  normalize_whitespace $"let a = b * 2;".
Proof.
  apply (@strip_comments_without_marker [$"src"; $"App.JS"]
           $"let a = b * 2;").
  left. split; [left; reflexivity | reflexivity].
Defined.
End MarkerFreeComments.

(** ** The Content Loader *)

Section LoaderMore.
Import Listing.

Lemma path_eqb_refl (p : Path) : path_eqb p p = true.
Proof. now apply path_eqb_eq. Qed.

Lemma dict_set_keys (k : Path) (v : str) (d : corpus) :
  map fst (dict_set k v d) =
  if existsb (path_eqb k) (map fst d) then map fst d else map fst d ++ [k].
Proof.
  induction d as [|[k' v'] d IH]; [reflexivity|].
  cbn [dict_set map fst existsb].
  destruct (path_eqb k k') eqn:E; cbn [map fst orb]; [reflexivity|].
  rewrite IH. now destruct (existsb (path_eqb k) (map fst d)).
Qed.

Lemma dict_get_set (k : Path) (v : str) (d : corpus) (q : Path)
    (default : str) :
  dict_get (dict_set k v d) q default =
  if path_eqb q k then v else dict_get d q default.
Proof.
  unfold dict_get. induction d as [|[k' v'] d IH].
  - cbn. now destruct (path_eqb q k).
  - cbn [dict_set]. destruct (path_eqb k k') eqn:E.
    + apply path_eqb_eq in E. subst k'. cbn [find fst snd].
      now destruct (path_eqb q k).
    + cbn [find fst snd]. destruct (path_eqb q k') eqn:E'.
      * apply path_eqb_eq in E'. subst k'.
        destruct (path_eqb q k) eqn:E''; [|reflexivity].
        apply path_eqb_eq in E''. subst q. now rewrite path_eqb_refl in E.
      * exact IH.
Qed.

Lemma dict_get_absent (d : corpus) (q : Path) (default : str) :
  ~ In q (map fst d) -> dict_get d q default = default.
Proof.
  unfold dict_get. induction d as [|[k v] d IH]; intros H; [reflexivity|].
  cbn [find fst]. destruct (path_eqb q k) eqn:E.
  - apply path_eqb_eq in E. subst k. exfalso. apply H. now left.
  - apply IH. intros Hin. apply H. now right.
Qed.

Lemma existsb_path_In (k : Path) (l : list Path) :
  existsb (path_eqb k) l = true <-> In k l.
Proof.
  rewrite existsb_exists. split.
  - intros [x [Hx E]]. apply path_eqb_eq in E. now subst.
  - intros H. exists k. split; [exact H | apply path_eqb_refl].
Qed.

Variable read : Path -> option str.

Let text_of (p : Path) : str :=
  match read p with Some t => t | None => [] end.

Let loaded (d : corpus) (l : list Path) : Prop :=
  NoDup (map fst d) /\
  (forall p, In p (map fst d) <-> In p l) /\
  (forall p default, In p l -> dict_get d p default = text_of p).

Lemma loaded_step (d : corpus) (l : list Path) (p : Path) :
  loaded d l -> loaded (dict_set p (text_of p) d) (l ++ [p]).
Proof.
  intros [Hnd [Hkeys Hget]]. repeat split.
  - rewrite dict_set_keys.
    destruct (existsb (path_eqb p) (map fst d)) eqn:E; [exact Hnd|].
    apply NoDup_app; [exact Hnd | repeat constructor; intros [] |].
    intros x Hx [<- | []]. apply existsb_path_In in Hx. congruence.
  - rewrite dict_set_keys. intros H.
    destruct (existsb (path_eqb p) (map fst d)) eqn:E.
    + apply in_or_app. left. now apply Hkeys.
    + apply in_app_or in H as [H | H]; apply in_or_app;
        [left; now apply Hkeys | now right].
  - rewrite dict_set_keys. intros H.
    destruct (existsb (path_eqb p) (map fst d)) eqn:E.
    + apply in_app_or in H as [H | [<- | []]]; [now apply Hkeys|].
      now apply existsb_path_In.
    + apply in_app_or in H as [H | H]; apply in_or_app;
        [left; now apply Hkeys | now right].
  - intros q default Hq. rewrite dict_get_set.
    destruct (path_eqb q p) eqn:E.
    + apply path_eqb_eq in E. now subst.
    + apply Hget. apply in_app_or in Hq as [Hq | [<- | []]]; [exact Hq|].
      now rewrite path_eqb_refl in E.
Qed.

Lemma loaded_fold (files l : list Path) (d : corpus) :
  loaded d l ->
  loaded
    (fold_left
       (fun d path =>
          dict_set path (match read path with Some t => t | None => [] end) d)
       files d)
    (l ++ files).
Proof.
  revert l d. induction files as [|p files IH]; intros l d H.
  - now rewrite app_nil_r.
  - cbn [fold_left].
    replace (l ++ p :: files) with ((l ++ [p]) ++ files)
      by now rewrite <- app_assoc.
    apply IH. now apply loaded_step.
Qed.

(** X13: the loaded corpus holds every file once: its keys are the files
    given, without repetition; looking a file up gives the text read, or
    the empty text when the file could not be opened; looking up any
    other path gives the default. *)
Theorem load_lookup (files : list Path) :
  NoDup (map fst (load read files)) /\
  (forall p, In p (map fst (load read files)) <-> In p files) /\
  (forall p default,
      In p files ->
      dict_get (load read files) p default =
      match read p with Some t => t | None => [] end) /\
  (forall p default,
      ~ In p files -> dict_get (load read files) p default = default).
Proof.
  assert (loaded (load read files) files) as [Hnd [Hkeys Hget]].
  { apply (@loaded_fold files [] []).
    split; [constructor | split; [intros p; reflexivity|]].
    intros p default []. }
  split; [exact Hnd | split; [exact Hkeys | split; [exact Hget|]]].
  intros p default Hp. apply dict_get_absent. intros H. apply Hp.
  now apply Hkeys.
Qed.
End LoaderMore.

(** ** The scope and the effects of [tmp_replace.py] *)

Section ScopeMore.
Import TmpReplace.

(** The tests of a component against the literals: once one succeeds the
    component is that literal and the other tests compute. *)
Ltac compute_tests :=
  repeat match goal with
         | |- context [str_eqb ?a ?b] =>
             tryif is_var b then fail
             else (let v := eval vm_compute in (str_eqb a b) in
                   change (str_eqb a b) with v)
         end.

Ltac split_component :=
  match goal with
  | |- context [str_eqb ?a ?b] =>
      is_var b;
      let E := fresh "E" in
      destruct (str_eqb a b) eqn:E;
      [apply str_eqb_eq in E; subst b; compute_tests|]
  end.

Lemma relative_to_nil (r : Path) : relative_to r [] = true.
Proof. now destruct r. Qed.

Lemma allowed_not_skipped (p : Path) :
  existsb (relative_to p) allowed_prefixes = true ->
  existsb (relative_to p) skip_prefixes = false.
Proof.
  unfold allowed_prefixes, skip_prefixes. cbn [existsb].
  destruct p as [|x [|y r]]; cbn [relative_to];
    rewrite ?relative_to_nil, ?andb_false_r, ?andb_true_r, ?orb_false_r;
    try discriminate.
  repeat split_component; cbn [andb orb]; intros H;
    try discriminate H; reflexivity.
Qed.

(** X14: a node is in the scope of the utility exactly when it is a
    regular file under one of the four allowed directories whose lowered
    extension is listed; the list of skipped prefixes excludes nothing
    that the allowed ones admit. *)
Theorem in_scope_allowed (n : node) :
  in_scope n =
  is_file n && existsb (relative_to (rel n)) allowed_prefixes
  && memb (lower (suffix (rel n))) extensions.
Proof.
  unfold in_scope. destruct (is_file n); [|reflexivity]. cbn [negb andb].
  destruct (existsb (relative_to (rel n)) allowed_prefixes) eqn:E.
  - rewrite (allowed_not_skipped _ E). cbn [negb andb].
    now destruct (memb (lower (suffix (rel n))) extensions).
  - cbn [negb andb].
    now destruct (existsb (relative_to (rel n)) skip_prefixes).
Qed.

(** X15: the run writes regular files only, each under one of the allowed
    directories and with a listed extension; what it writes there is the
    substituted text of the file, which differs from the text read. *)
Theorem run_writes_in_scope
    (sep : codepoint) (tree : list node) (p : Path) (t' : str) :
  In (p, t') (written (run sep tree)) ->
  existsb (relative_to p) allowed_prefixes = true /\
  existsb (relative_to p) skip_prefixes = false /\
  memb (lower (suffix p)) extensions = true /\
  exists n t,
    In n tree /\ rel n = p /\ is_file n = true /\ text n = Some t /\
    t' = substitute replacements t /\ t' <> t.
Proof.
  intros H. apply run_written in H as [n [Hn [Hs [<- [t [Ht [E Hne]]]]]]].
  rewrite in_scope_allowed in Hs.
  apply andb_true_iff in Hs as [Hs Hext].
  apply andb_true_iff in Hs as [Hfile Hall].
  repeat split; try assumption.
  - now apply allowed_not_skipped.
  - exists n, t. now repeat split.
Qed.

Lemma run_writes_in_scope_witness :
  let tree :=
    [Node [$"frontend"; $"src"; $"Books.js"] true (Some $"Copy IDs here");
     Node [$"docs"; $"guide.md"] true (Some $"Copy IDs here")] in
  let p := [$"frontend"; $"src"; $"Books.js"] in
  existsb (relative_to p) allowed_prefixes = true /\
  existsb (relative_to p) skip_prefixes = false /\
  memb (lower (suffix p)) extensions = true /\
  exists n t,
    In n tree /\ rel n = p /\ is_file n = true /\ text n = Some t /\
    $"Reference IDs here" = substitute replacements t /\
    $"Reference IDs here" <> t.
Proof.
  apply (@run_writes_in_scope slash
           [Node [$"frontend"; $"src"; $"Books.js"] true
              (Some $"Copy IDs here");
            Node [$"docs"; $"guide.md"] true (Some $"Copy IDs here")]
           [$"frontend"; $"src"; $"Books.js"] $"Reference IDs here").
  vm_compute. left. reflexivity.
Defined.

Lemma contains_trans (a b t : str) :
  contains a b = true -> contains b t = true -> contains a t = true.
Proof.
  rewrite !contains_iff. intros [x [y ->]] [u [v ->]].
  exists (u ++ x), (y ++ v). now rewrite <- !app_assoc.
Qed.

(** X16: a text in which the letters opy followed by a space do not occur
    is left as it is by the substitution pass, so a file holding such a
    text is never written. *)
Theorem substitute_without_opy (t : str) :
  contains $"opy " t = false -> substitute replacements t = t.
Proof.
  intros H. apply substitute_absent. intros r Hr. split.
  - now apply (closed_table_nonempty _ replacements_closed).
  - destruct (contains (fst r) t) eqn:E; [|reflexivity].
    assert (contains $"opy " (fst r) = true) as Hopy.
    { cbn [replacements In] in Hr.
      repeat (destruct Hr as [<- | Hr]; [reflexivity|]). destruct Hr. }
    rewrite (@contains_trans _ _ _ Hopy E) in H. discriminate.
Qed.

Lemma substitute_without_opy_witness :
  substitute replacements $"Copyright, copying IDs" =
  $"Copyright, copying IDs".
Proof.
  apply (@substitute_without_opy $"Copyright, copying IDs"). reflexivity.
Defined.

(** X17: a path in the list of modified files holds no backslash, and a
    path whose components hold none is reported as its components joined
    by the separator. *)
Theorem reported_no_backslash (sep : codepoint) (p : Path) :
  contains [backslash] (reported sep p) = false /\
  (contains [backslash] (join [sep] p) = false ->
   reported sep p = join [sep] p).
Proof.
  unfold reported. split.
  - apply replace_keeps_absent;
      [discriminate | reflexivity | now left].
  - intros H. apply replace_absent; [discriminate | exact H].
Qed.
End ScopeMore.

(** ** Names, stems and extensions *)

Section NamesMore.
Import Listing.

Lemma rpartition_none (c : codepoint) (s : str) :
  rpartition c s = None <-> mem c s = false.
Proof.
  induction s as [|x s IH]; [now split|].
  cbn [rpartition mem existsb]. fold (mem c s).
  destruct (rpartition c s) as [[b a]|].
  - split; [discriminate|]. intros H. apply orb_false_iff in H as [_ H].
    apply IH in H. discriminate.
  - rewrite (proj1 IH eq_refl), orb_false_r, N.eqb_sym.
    destruct (c =? x)%N; split; congruence.
Qed.

Lemma rpartition_some (c : codepoint) (s b a : str) :
  rpartition c s = Some (b, a) -> s = b ++ c :: a /\ mem c a = false.
Proof.
  revert b. induction s as [|x s IH]; intros b; [discriminate|].
  cbn [rpartition]. destruct (rpartition c s) as [[b' a']|] eqn:E.
  - intros [= <- <-]. destruct (IH b' eq_refl) as [-> H]. now split.
  - destruct (x =? c)%N eqn:Ex; [|discriminate].
    intros [= <- <-]. apply N.eqb_eq in Ex. subst x.
    split; [reflexivity | now apply rpartition_none].
Qed.

Lemma rpartition_app (c : codepoint) (x a : str) :
  mem c a = false -> rpartition c (x ++ c :: a) = Some (x, a).
Proof.
  intros H. induction x as [|y x IH]; cbn [app rpartition].
  - rewrite (proj2 (rpartition_none c a) H). now rewrite N.eqb_refl.
  - now rewrite IH.
Qed.

Lemma join_last (sep : str) (p : list str) :
  exists pre, join sep p = pre ++ last p [].
Proof.
  induction p as [|x p [pre IH]]; [now exists []|].
  destruct p as [|y p]; [now exists []|].
  rewrite join_cons, IH. exists (x ++ sep ++ pre).
  now rewrite <- !app_assoc.
Qed.

(** X18: the stem and the suffix of a path make up its name;
    [rel_no_ext], which cuts the relative path at its last dot, always
    gives a beginning of the relative path, gives the whole of it when it
    has no dot, and for a file with a suffix gives the path without that
    suffix. *)
Theorem rel_no_ext_suffix (p : Path) :
  stem p ++ suffix p = name p /\
  startswith (rel_no_ext (as_posix p)) (as_posix p) = true /\
  (mem dot (as_posix p) = false -> rel_no_ext (as_posix p) = as_posix p) /\
  (suffix p <> [] -> rel_no_ext (as_posix p) ++ suffix p = as_posix p).
Proof.
  split; [|split; [|split]].
  - unfold stem, suffix.
    destruct (rpartition dot (name p)) as [[b a]|] eqn:E;
      [|now rewrite app_nil_r].
    apply rpartition_some in E as [E _].
    destruct b as [|x b]; [now rewrite app_nil_r|].
    destruct a as [|y a]; [now rewrite app_nil_r|].
    now rewrite E.
  - unfold rel_no_ext.
    destruct (rpartition dot (as_posix p)) as [[b a]|] eqn:E.
    + apply rpartition_some in E as [E _]. apply startswith_iff.
      now exists (dot :: a).
    + apply startswith_iff. exists []. now rewrite app_nil_r.
  - intros H. unfold rel_no_ext.
    now rewrite (proj2 (rpartition_none dot (as_posix p)) H).
  - unfold suffix, rel_no_ext, as_posix.
    destruct (rpartition dot (name p)) as [[b a]|] eqn:E; [|easy].
    apply rpartition_some in E as [E Ha].
    destruct b as [|x b]; [easy|]. destruct a as [|y a]; [easy|].
    intros _. destruct (join_last [slash] p) as [pre Hpre].
    unfold name in E. rewrite Hpre, E.
    replace (pre ++ (x :: b) ++ dot :: y :: a)
      with ((pre ++ x :: b) ++ dot :: y :: a) by now rewrite <- app_assoc.
    now rewrite (@rpartition_app _ _ _ Ha).
Qed.
End NamesMore.

(** ** Substitution along the text *)

Section SubScan.
Import Anchors.

Lemma last_cons_default (A : Type) (x d : A) (l : list A) :
  last (x :: l) d = last l x.
Proof.
  revert x d. induction l as [|y l IH]; intros x d; [reflexivity|].
  change (last (x :: y :: l) d) with (last (y :: l) d).
  now rewrite (IH y d), (IH y x).
Qed.

Lemma before_cons (prev : option codepoint) (x : codepoint) (a : str) :
  before prev (x :: a) = before (Some x) a.
Proof. unfold before. cbn [map]. apply last_cons_default. Qed.

Lemma before_snoc (prev : option codepoint) (a : str) (y : codepoint) :
  before prev (a ++ [y]) = Some y.
Proof.
  unfold before. rewrite map_app. cbn [map]. apply last_last.
Qed.

Lemma sub_scan_skip (r : re) (repl a s : str) (prev : option codepoint) :
  sub_scan r repl (List.length a) prev (a ++ s) =
  sub_scan r repl 0 (before prev a) s.
Proof.
  revert prev. induction a as [|x a IH]; intros prev; [reflexivity|].
  cbn [List.length app sub_scan]. now rewrite IH, before_cons.
Qed.

Lemma sub_scan_match (r : re) (repl m t : str) (x : codepoint)
    (prev : option codepoint) :
  match_at r prev (x :: m ++ t) = Some t ->
  sub_scan r repl 0 prev (x :: m ++ t) =
  repl ++ sub_scan r repl 0 (before prev (x :: m)) t.
Proof.
  intros H. cbn [sub_scan]. rewrite H.
  replace (List.length (x :: m ++ t) - List.length t)
    with (S (List.length m))
    by (cbn [List.length]; rewrite length_app; lia).
  now rewrite sub_scan_skip, before_cons.
Qed.

Lemma sub_scan_match_app (r : re) (repl m t : str)
    (prev : option codepoint) :
  m <> [] -> match_at r prev (m ++ t) = Some t ->
  sub_scan r repl 0 prev (m ++ t) =
  repl ++ sub_scan r repl 0 (before prev m) t.
Proof.
  destruct m as [|x m]; [contradiction|]. intros _. apply sub_scan_match.
Qed.

Lemma sub_scan_pass (r : re) (repl a s : str) (prev : option codepoint) :
  (forall p x t, In x a -> match_at r p (x :: t) = None) ->
  sub_scan r repl 0 prev (a ++ s) =
  a ++ sub_scan r repl 0 (before prev a) s.
Proof.
  revert prev. induction a as [|x a IH]; intros prev H; [reflexivity|].
  cbn [app sub_scan]. rewrite (H prev x (a ++ s) (or_introl eq_refl)).
  rewrite before_cons. f_equal. apply IH.
  intros p y t Hy. apply H. now right.
Qed.

Section PrevFree.
Variable A : Type.

Lemma rmatch_prev_free (r : re) :
  prev_free r = true ->
  forall (k1 k2 : option codepoint -> str -> option A),
    (forall p q t, k1 p t = k2 q t) ->
    forall p q s, rmatch r p s k1 = rmatch r q s k2.
Proof.
  induction r as [|cs|r1 IH1 r2 IH2|r1 IH1 r2 IH2|cs|cs| |];
    intros Hr k1 k2 Hk p q s; cbn [prev_free] in Hr; try discriminate.
  - apply Hk.
  - cbn [rmatch]. destruct s as [|c s]; [reflexivity|].
    destruct (cmatch cs c); [apply Hk | reflexivity].
  - apply andb_true_iff in Hr as [Hr1 Hr2]. cbn [rmatch].
    apply (IH1 Hr1). intros p' q' t. now apply (IH2 Hr2).
  - apply andb_true_iff in Hr as [Hr1 Hr2]. cbn [rmatch].
    rewrite (IH1 Hr1 k1 k2 Hk p q s), (IH2 Hr2 k1 k2 Hk p q s). reflexivity.
  - cbn [rmatch]. revert p q. induction s as [|c s IHs]; intros p q.
    + apply Hk.
    + destruct (cmatch cs c); [|apply Hk].
      rewrite (IHs (Some c) (Some c)), (Hk p q (c :: s)). reflexivity.
  - cbn [rmatch]. revert p q. induction s as [|c s IHs]; intros p q.
    + now rewrite (Hk p q []).
    + rewrite (Hk p q (c :: s)).
      destruct (k2 q (c :: s)); [reflexivity|].
      destruct (cmatch cs c); [apply IHs | reflexivity].
  - cbn [rmatch]. destruct (at_eol s); [apply Hk | reflexivity].
Qed.
End PrevFree.

Lemma match_at_prev_free (r : re) (p q : option codepoint) (s : str) :
  prev_free r = true -> match_at r p s = match_at r q s.
Proof. intros Hr. unfold match_at. now apply rmatch_prev_free. Qed.

Lemma sub_scan_prev_free (r : re) (repl : str) :
  prev_free r = true ->
  forall s n p q, sub_scan r repl n p s = sub_scan r repl n q s.
Proof.
  intros Hr s. induction s as [|c s IH]; intros n p q; cbn [sub_scan].
  - destruct n; [|reflexivity]. now rewrite (@match_at_prev_free r p q [] Hr).
  - destruct n; [|apply IH].
    rewrite (@match_at_prev_free r p q (c :: s) Hr).
    assert (match_at_nonempty r p (c :: s) = match_at_nonempty r q (c :: s))
      as -> by (unfold match_at_nonempty; now apply rmatch_prev_free).
    reflexivity.
Qed.
End SubScan.

(** ** Comments at a known place *)

Section CommentRemoval.
Import Lines Listing Anchors.

Lemma rmatch_word_exact (A : Type) (w t : str) (prev : option codepoint)
    (k : option codepoint -> str -> option A) :
  rmatch (word w) prev (w ++ t) k = k (before prev w) t.
Proof.
  revert prev. induction w as [|c w IH]; intros prev; [reflexivity|].
  cbn [word app]. rewrite rmatch_seq, rmatch_chr by apply N.eqb_refl.
  now rewrite IH, before_cons.
Qed.

Lemma rmatch_word_fail (A : Type) (w t : str) (prev : option codepoint)
    (k : option codepoint -> str -> option A) :
  startswith w t = false -> rmatch (word w) prev t k = None.
Proof.
  revert t prev. induction w as [|c w IH]; intros t prev H; [discriminate|].
  cbn [word]. rewrite rmatch_seq. cbn [rmatch].
  destruct t as [|x t]; [reflexivity|]. cbn [startswith] in H.
  cbn [cmatch]. rewrite N.eqb_sym. destruct (c =? x)%N; [|reflexivity].
  now apply IH.
Qed.

Lemma rmatch_starlazy_unfold (A : Type) (cs : cset)
    (prev : option codepoint) (t : str)
    (k : option codepoint -> str -> option A) :
  rmatch (StarLazy cs) prev t k =
  match k prev t with
  | Some x => Some x
  | None =>
      match t with
      | c :: t' =>
          if cmatch cs c then rmatch (StarLazy cs) (Some c) t' k else None
      | [] => None
      end
  end.
Proof. now destruct t. Qed.

Lemma rmatch_star_exact (A : Type) (cs : cset) (a t : str)
    (prev : option codepoint) (k : option codepoint -> str -> option A)
    (v : A) :
  forallb (cmatch cs) a = true ->
  match t with [] => true | x :: _ => negb (cmatch cs x) end = true ->
  k (before prev a) t = Some v ->
  rmatch (Star cs) prev (a ++ t) k = Some v.
Proof.
  intros Ha Ht. revert prev. induction a as [|y a IH]; intros prev Hk.
  - cbn [app rmatch]. destruct t as [|x t]; [exact Hk|].
    apply negb_true_iff in Ht. rewrite Ht. exact Hk.
  - cbn [forallb] in Ha. apply andb_true_iff in Ha as [Hy Ha].
    rewrite before_cons in Hk. specialize (IH Ha (Some y) Hk).
    cbn [rmatch app] in IH |- *. rewrite Hy. now rewrite IH.
Qed.

(** The first [*/] after the opening of a block comment closes it. *)
Lemma block_comment_at (c b : str) (prev : option codepoint) :
  contains [star; slash] (c ++ [star]) = false ->
  match_at block_comment prev ([slash; star] ++ c ++ [star; slash] ++ b)
  = Some b.
Proof.
  intros H. unfold match_at, block_comment. cbn [seq].
  rewrite rmatch_seq.
  change (word $"/*") with (word [slash; star]).
  rewrite rmatch_word_exact. generalize (before prev [slash; star]).
  change (word $"*/") with (word [star; slash]).
  induction c as [|x c IH]; intros p; rewrite rmatch_seq, rmatch_starlazy_unfold.
  - cbn [app]. rewrite rmatch_seq.
    change (star :: slash :: b) with ([star; slash] ++ b).
    now rewrite rmatch_word_exact.
  - change ((x :: c) ++ [star]) with (x :: (c ++ [star])) in H.
    rewrite contains_cons in H. apply orb_false_iff in H as [Hx Hc].
    rewrite rmatch_seq. rewrite rmatch_word_fail.
    + cbn [cmatch app]. rewrite <- rmatch_seq. now apply IH.
    + destruct c as [|y c]; cbn [app startswith] in Hx |- *.
      * destruct (star =? x)%N; [reflexivity | reflexivity].
      * destruct (star =? x)%N, (slash =? y)%N; cbn [andb] in Hx |- *;
          try reflexivity; discriminate.
Qed.

Lemma block_comment_head (x : codepoint) (t : str)
    (p : option codepoint) :
  (x =? slash)%N = false -> match_at block_comment p (x :: t) = None.
Proof.
  intros H. unfold match_at, block_comment. cbn [seq].
  rewrite rmatch_seq. apply rmatch_word_fail.
  change ($"/*") with [slash; star]. cbn [startswith].
  rewrite N.eqb_sym. now rewrite H.
Qed.

(** X19: the first pass of the comment stripping for the extensions with
    block comments removes a block comment that follows a text without a
    slash, from its opening to the first closing after it, across line
    breaks, and goes on with the rest of the text as with a text of its
    own. *)
Theorem block_comment_removed (a c b : str) :
  mem slash a = false ->
  contains [star; slash] (c ++ [star]) = false ->
  Re.sub block_comment []
    (a ++ [slash; star] ++ c ++ [star; slash] ++ b) =
  a ++ Re.sub block_comment [] b.
Proof.
  intros Ha Hc. unfold Re.sub. rewrite sub_scan_pass.
  - f_equal.
    assert ([slash; star] ++ c ++ [star; slash] ++ b =
            ([slash; star] ++ c ++ [star; slash]) ++ b) as E
      by (cbn [app]; now rewrite <- app_assoc).
    rewrite E, sub_scan_match_app.
    + now apply sub_scan_prev_free.
    + discriminate.
    + rewrite <- E. now apply block_comment_at.
  - intros p x t Hx. apply block_comment_head.
    apply N.eqb_neq. intros ->.
    assert (mem slash a = true) as E
      by (apply existsb_exists; exists slash; split;
          [exact Hx | apply N.eqb_refl]).
    congruence.
Qed.

Lemma block_comment_removed_witness :
  Re.sub block_comment []
    ($"x = 1; " ++ [slash; star] ++ ($" a" ++ [nl] ++ $"b * c ")
     ++ [star; slash] ++ $" y = 2;") =
  $"x = 1; " ++ Re.sub block_comment [] $" y = 2;".
Proof.
  apply (@block_comment_removed $"x = 1; " ($" a" ++ [nl] ++ $"b * c ")
           $" y = 2;"); reflexivity.
Defined.
End CommentRemoval.

(** ** Whole-line comments *)

Section AtBol.
Variable A : Type.

Lemma rmatch_at_bol (r : re) :
  forall (k1 k2 : option codepoint -> str -> option A),
    (forall p q t, at_bol p = at_bol q -> k1 p t = k2 q t) ->
    forall p q s, at_bol p = at_bol q -> rmatch r p s k1 = rmatch r q s k2.
Proof.
  induction r as [|cs|r1 IH1 r2 IH2|r1 IH1 r2 IH2|cs|cs| |];
    intros k1 k2 Hk p q s Hpq.
  - now apply Hk.
  - cbn [rmatch]. destruct s as [|c s]; [reflexivity|].
    destruct (cmatch cs c); [now apply Hk | reflexivity].
  - cbn [rmatch]. apply IH1; [|exact Hpq].
    intros p' q' t Hpq'. now apply IH2.
  - cbn [rmatch].
    now rewrite (IH1 k1 k2 Hk p q s Hpq), (IH2 k1 k2 Hk p q s Hpq).
  - cbn [rmatch]. revert p q Hpq. induction s as [|c s IHs]; intros p q Hpq.
    + now apply Hk.
    + destruct (cmatch cs c); [|now apply Hk].
      rewrite (IHs (Some c) (Some c) eq_refl), (Hk p q (c :: s) Hpq).
      reflexivity.
  - cbn [rmatch]. revert p q Hpq. induction s as [|c s IHs]; intros p q Hpq.
    + now rewrite (Hk p q [] Hpq).
    + rewrite (Hk p q (c :: s) Hpq).
      destruct (k2 q (c :: s)); [reflexivity|].
      destruct (cmatch cs c); [now apply IHs | reflexivity].
  - cbn [rmatch]. rewrite Hpq. destruct (at_bol q) eqn:Eq; [|reflexivity].
    apply Hk. congruence.
  - cbn [rmatch]. destruct (at_eol s); [now apply Hk | reflexivity].
Qed.
End AtBol.

Lemma sub_scan_at_bol (r : re) (repl : str) :
  forall s n p q,
    at_bol p = at_bol q -> sub_scan r repl n p s = sub_scan r repl n q s.
Proof.
  intros s. induction s as [|c s IH]; intros n p q Hpq; cbn [sub_scan].
  - destruct n; [|reflexivity].
    assert (match_at r p [] = match_at r q []) as ->
      by (unfold match_at; now apply rmatch_at_bol).
    reflexivity.
  - destruct n; [|reflexivity].
    assert (match_at r p (c :: s) = match_at r q (c :: s)) as ->
      by (unfold match_at; now apply rmatch_at_bol).
    assert (match_at_nonempty r p (c :: s) = match_at_nonempty r q (c :: s))
      as -> by (unfold match_at_nonempty; now apply rmatch_at_bol).
    reflexivity.
Qed.

Section HashComments.
Import Lines Listing Anchors Markers.

Lemma hash_comment_at (ws c t : str) (prev : option codepoint) :
  at_bol prev = true -> all_space ws = true -> mem nl c = false ->
  at_eol t = true ->
  match_at hash_comment prev (ws ++ [hash] ++ c ++ t) = Some t.
Proof.
  intros Hbol Hws Hc Ht. unfold match_at, hash_comment. cbn [seq].
  rewrite rmatch_seq, rmatch_bol, Hbol, rmatch_seq.
  apply rmatch_star_exact; [exact Hws | reflexivity |].
  rewrite rmatch_seq. change (word $"#") with (word [hash]).
  rewrite rmatch_word_exact, rmatch_seq.
  apply rmatch_star_exact.
  - clear -Hc. induction c as [|x c IH]; [reflexivity|].
    cbn [mem existsb] in Hc. apply orb_false_iff in Hc as [Hx Hc].
    cbn [forallb cmatch]. rewrite N.eqb_sym, Hx. now apply IH.
  - destruct t as [|x t]; [reflexivity|]. cbn [at_eol] in Ht.
    cbn [cmatch]. now rewrite Ht.
  - rewrite rmatch_seq. cbn [rmatch]. now rewrite Ht.
Qed.

Lemma hash_comment_not_bol (p : option codepoint) (s : str) :
  at_bol p = false -> match_at hash_comment p s = None.
Proof.
  intros H. unfold match_at, hash_comment. cbn [seq].
  now rewrite rmatch_seq, rmatch_bol, H.
Qed.

Lemma before_comment (ws c : str) (prev : option codepoint) :
  mem nl c = false -> at_bol (before prev (ws ++ [hash] ++ c)) = false.
Proof.
  intros Hc. destruct (exists_last (l := hash :: c)) as [m [y E]];
    [discriminate|].
  change ([hash] ++ c) with (hash :: c). rewrite E, app_assoc, before_snoc.
  cbn [at_bol]. apply N.eqb_neq. intros ->.
  assert (In nl (hash :: c)) as Hin
    by (rewrite E; apply in_or_app; right; now left).
  destruct Hin as [Hin | Hin]; [discriminate|].
  assert (mem nl c = true) as E'
    by (apply existsb_exists; exists nl; split; [exact Hin | reflexivity]).
  congruence.
Qed.

(** X20: the comment stripping for the extensions with [#] comments
    empties a comment line at the beginning of the text, together with
    the white space and the blank lines before the [#]; the line break
    after the comment stays and the rest of the text is treated as a text
    of its own; a text that is one such comment becomes empty. *)
Theorem hash_comment_removed (ws c rest : str) :
  all_space ws = true -> mem nl c = false ->
  Re.sub hash_comment [] (ws ++ [hash] ++ c ++ nl :: rest) =
  nl :: Re.sub hash_comment [] rest /\
  Re.sub hash_comment [] (ws ++ [hash] ++ c) = [].
Proof.
  intros Hws Hc. unfold Re.sub. split.
  - assert (ws ++ [hash] ++ c ++ nl :: rest =
            (ws ++ [hash] ++ c) ++ nl :: rest) as E
      by now rewrite <- !app_assoc.
    rewrite E, sub_scan_match_app.
    + cbn [app sub_scan].
      rewrite hash_comment_not_bol by now apply before_comment.
      f_equal. now apply sub_scan_at_bol.
    + now destruct ws.
    + rewrite <- E. now apply hash_comment_at.
  - rewrite <- (app_nil_r (ws ++ [hash] ++ c)), sub_scan_match_app.
    + cbn [app sub_scan].
      now rewrite hash_comment_not_bol by now apply before_comment.
    + now destruct ws.
    + rewrite <- !app_assoc. now apply hash_comment_at.
Qed.

Lemma hash_comment_removed_witness :
  Re.sub hash_comment []
    (([nl] ++ $"  ") ++ [hash] ++ $" setup" ++ nl :: $"x = 1") =
  nl :: Re.sub hash_comment [] $"x = 1" /\
  Re.sub hash_comment [] (([nl] ++ $"  ") ++ [hash] ++ $" setup") = [].
Proof.
  apply (@hash_comment_removed ([nl] ++ $"  ") $" setup" $"x = 1");
    reflexivity.
Defined.
End HashComments.
